(** * Verification of [derive] (src/derive.ts)

    A shallow embedding of the derived-store engine: the bookkeeping
    store, the per-source reaction, the listener fan-out and the public
    facade, over an explicit heap of JavaScript arrays and [Set]s, so
    that object identity, in-place mutation and thrown exceptions are
    part of the model. *)

From stdpp Require Import gmap strings list fin_maps.
From Stdlib Require Import ZArith.

Open Scope Z_scope.
Open Scope nat_scope.

(** ** JavaScript values, exceptions, completions *)

(** The runtime values held by the stores.  [VNull] and [VUndefined]
    are the two nullish values that [??] tests for. *)
Inductive value : Type :=
| VNull
| VUndefined
| VBool (b : bool)
| VNum (n : Z)
| VStr (s : string).

#[global] Instance value_eq_dec : EqDecision value.
Proof. solve_decision. Defined.

(** What a [throw] carries.  [SetStateError] is the class imported by
    derive.ts; [Thrown] is any value thrown by user code ([onChange]);
    [TypeError] is raised by the runtime when a property of a
    non-array / non-Set is used. *)
Inductive exn : Type :=
| SetStateError (msg : string)
| TypeError (msg : string)
| Thrown (v : value).

#[global] Instance exn_eq_dec : EqDecision exn.
Proof. solve_decision. Defined.

Inductive completion (A : Type) : Type :=
| Normal (a : A)
| Throw (e : exn).
Arguments Normal {A} a.
Arguments Throw {A} e.

(** Object identities.  A listener is a function value; what matters
    about it for [Set] membership is its identity. *)
Abbreviation loc := nat (only parsing).
Abbreviation listener := nat (only parsing).

(** ** The heap: arrays and Sets *)

(** A [Set] keeps its entries in insertion order; [delete] leaves an
    empty slot ([None]) behind so that an iteration in progress keeps
    its position (ECMAScript [[SetData]]). *)
Inductive obj : Type :=
| OArr (vs : list value)
| OSet (es : list (option listener)).

(** [arr[i] = v]: in range the slot is replaced; out of range the array
    is extended, the holes reading as [undefined]. *)
Definition js_array_set (vs : list value) (i : nat) (v : value) : list value :=
  if decide (i < length vs) then <[i:=v]> vs
  else vs ++ replicate (i - length vs) VUndefined ++ [v].

(** [a ?? b] *)
Definition nullish (v : value) : bool :=
  match v with
  | VNull | VUndefined => true
  | _ => false
  end.

Definition coalesce (a b : value) : value :=
  if nullish a then b else a.

(** [[...set]]: the live entries in insertion order. *)
Definition set_values (es : list (option listener)) : list listener :=
  omap id es.

(** [set.add(x)] on the entry list. *)
Definition set_add (es : list (option listener)) (x : listener)
  : list (option listener) :=
  if decide (x ∈ set_values es) then es else es ++ [Some x].

(** [new Set(iterable)] *)
Definition set_of_list (xs : list listener) : list (option listener) :=
  foldl set_add [] xs.

(** [set.delete(x)] on the entry list. *)
Definition set_delete (es : list (option listener)) (x : listener)
  : list (option listener) :=
  (λ e, if decide (e = Some x) then None else e) <$> es.

(** ** The bookkeeping store *)

(** The object held by the internal store created on lines 47-80. *)
Record Book : Type := mkBook {
  listeners : loc;
  depsState : loc;
  prevDepsState : option loc;
  state : value;
  prevState : value;
  depsSubs : list nat;
}.

(** The argument of the internal store's [setState]: the fields that are
    present in the object literal. *)
Record Partial : Type := mkPartial {
  p_listeners : option loc;
  p_depsState : option loc;
  p_prevDepsState : option (option loc);
  p_state : option value;
  p_prevState : option value;
  p_depsSubs : option (list nat);
}.

(** Modelled from the spec: [createObjectStore] is imported from "." and
    is not part of the sources; its [setState] shallow-merges the given
    fields into the current object.  The internal store is never handed
    out, so it has no subscribers of its own to notify. *)
Definition merge (b : Book) (p : Partial) : Book :=
  {| listeners := default (listeners b) (p_listeners p);
     depsState := default (depsState b) (p_depsState p);
     prevDepsState := default (prevDepsState b) (p_prevDepsState p);
     state := default (state b) (p_state p);
     prevState := default (prevState b) (p_prevState p);
     depsSubs := default (depsSubs b) (p_depsSubs p) |}.

(** One invocation of a listener of the derived store, as observed. *)
Record Call : Type := mkCall {
  c_listener : listener;
  c_state : value;
  c_prevState : value;
}.

#[global] Instance Call_eq_dec : EqDecision Call.
Proof. solve_decision. Defined.

(** Everything a run of the program can touch: the heap and its
    allocation pointer, the content of the bookkeeping store, the
    listener invocations made so far (oldest first), and the current
    values of the source stores. *)
Record World : Type := mkWorld {
  heap : gmap nat obj;
  next : loc;
  book : Book;
  calls : list Call;
  srcs : list value;
}.

Definition with_heap (h : gmap nat obj) (n : loc) (w : World) : World :=
  {| heap := h; next := n; book := book w; calls := calls w; srcs := srcs w |}.
Definition with_book (b : Book) (w : World) : World :=
  {| heap := heap w; next := next w; book := b; calls := calls w; srcs := srcs w |}.
Definition with_calls (cs : list Call) (w : World) : World :=
  {| heap := heap w; next := next w; book := book w; calls := cs; srcs := srcs w |}.
Definition with_srcs (vs : list value) (w : World) : World :=
  {| heap := heap w; next := next w; book := book w; calls := calls w; srcs := vs |}.

(** ** Computations: state that survives a throw *)

Definition M (A : Type) : Type := World → completion A * World.

Definition ret {A} (a : A) : M A := λ w, (Normal a, w).
Definition throw {A} (e : exn) : M A := λ w, (Throw e, w).
Definition bind {A B} (c : M A) (k : A → M B) : M B :=
  λ w, match c w with
       | (Normal a, w') => k a w'
       | (Throw e, w') => (Throw e, w')
       end.

Notation "'let!' x := c 'in' k" := (bind c (λ x, k))
  (at level 10, x name, c at level 100, k at level 200, only parsing).
Notation "c ;; k" := (bind c (λ _, k))
  (at level 100, k at level 200, only parsing, right associativity).

Definition lift {A} (r : completion A) : M A := λ w, (r, w).

(** [new T(...)] / an array literal: a fresh identity. *)
Definition alloc (o : obj) : M loc :=
  λ w, (Normal (next w), with_heap (<[next w := o]> (heap w)) (S (next w)) w).

Definition read_arr (a : loc) : M (list value) :=
  λ w, match heap w !! a with
       | Some (OArr vs) => (Normal vs, w)
       | _ => (Throw (TypeError "not an array"), w)
       end.

Definition read_set (s : loc) : M (list (option listener)) :=
  λ w, match heap w !! s with
       | Some (OSet es) => (Normal es, w)
       | _ => (Throw (TypeError "not a Set"), w)
       end.

Definition write (a : loc) (o : obj) : M unit :=
  λ w, (Normal tt, with_heap (<[a := o]> (heap w)) (next w) w).

Definition store_getState : M Book := λ w, (Normal (book w), w).

Definition store_setState (p : Partial) : M unit :=
  λ w, (Normal tt, with_book (merge (book w) p) w).

Definition record (c : Call) : M unit :=
  λ w, (Normal tt, with_calls (calls w ++ [c]) w).

(** [set.forEach(callbackfn)]: the entries are read from the live object
    at every step, so a deletion made by a callback is seen by the
    iteration, which stops when [index] has passed the last entry.  No
    operation of this program adds to an existing Set (subscribe builds
    a new one), hence the number of entries at the start bounds the
    number of steps ([set_forEach_from_enough] below). *)
Fixpoint set_forEach_from (steps index : nat) (s : loc)
    (callbackfn : listener → M unit) : M unit :=
  match steps with
  | 0 => ret tt
  | S steps' =>
      let! es := read_set s in
      match es !! index with
      | None => ret tt
      | Some e =>
          match e with
          | Some l => callbackfn l
          | None => ret tt
          end ;;
          set_forEach_from steps' (S index) s callbackfn
      end
  end.

Definition set_forEach (s : loc) (callbackfn : listener → M unit) : M unit :=
  let! es := read_set s in
  set_forEach_from (length es) 0 s callbackfn.

(** What the code of a listener does when it is called: it may use the
    facade it was given ([subscribe], a handle that [subscribe]
    returned, [setState]) and it may throw.  It does not change a
    source store: a reaction runs to completion before another one
    starts. *)
Inductive action : Type :=
| ActSubscribe (l : listener)
| ActUnsubscribe (l : listener)
| ActSetState (arg : value)
| ActThrow (v : value).

Inductive event : Type :=
| ESource (i : nat) (x : value)
| ESubscribe (l : listener)
| EUnsubscribe (l : listener)
| ESetState (arg : value).

#[global] Instance action_eq_dec : EqDecision action.
Proof. solve_decision. Defined.

#[global] Instance event_eq_dec : EqDecision event.
Proof. solve_decision. Defined.

(** An action that returns: everything but a [throw] and a call of the
    facade's [setState]. *)
Definition returns (a : action) : Prop :=
  match a with
  | ActSetState _ | ActThrow _ => False
  | _ => True
  end.

Definition is_facade_call (e : event) : Prop :=
  match e with
  | ESource _ _ => False
  | _ => True
  end.

(** ** Reading a world *)

(** The members of the derived store's current listener Set. *)
Definition listeners_of (w : World) : option (list listener) :=
  match heap w !! listeners (book w) with
  | Some (OSet es) => Some (set_values es)
  | _ => None
  end.

(** The content of the tuple that [depsState] refers to. *)
Definition deps_of (w : World) : option (list value) :=
  match heap w !! depsState (book w) with
  | Some (OArr vs) => Some vs
  | _ => None
  end.

(** The content of [prevDepsState]: [Some None] is JavaScript's [null]. *)
Definition prevDeps_of (w : World) : option (option (list value)) :=
  match prevDepsState (book w) with
  | None => Some None
  | Some p =>
      match heap w !! p with
      | Some (OArr vs) => Some (Some vs)
      | _ => None
      end
  end.

(** [l] is not a member of the current listener Set. *)
Definition absent (l : listener) (w : World) : Prop :=
  ∃ ls, listeners_of w = Some ls ∧ l ∉ ls.

(** The entries of a Set object after some deletions: same positions,
    some of them emptied. *)
Definition trimmed (es es' : list (option nat)) : Prop :=
  length es' = length es ∧
  ∀ q x, es' !! q = Some (Some x) → es !! q = Some (Some x).

(** The entry of [l], if there is one, has not been emptied. *)
Definition keeps (l : listener) (es es' : list (option nat)) : Prop :=
  ∀ q, es !! q = Some (Some l) → es' !! q = Some (Some l).

(** The invocations made between an earlier world and a later one. *)
Definition calls_since (w w' : World) : list Call :=
  drop (length (calls w)) (calls w').

Definition calls_to (l : listener) (cs : list Call) : list Call :=
  filter (λ c, c_listener c = l) cs.

(** Shape of the worlds the program produces: every object is below the
    allocation pointer, the bookkeeping fields refer to objects of the
    right kind, the tuples have one slot per source, and the listener
    Set has no duplicate member. *)
Record wf (w : World) : Prop := mk_wf {
  wf_bound : ∀ a, is_Some (heap w !! a) → a < next w;
  wf_listeners :
    ∃ es, heap w !! listeners (book w) = Some (OSet es) ∧
          NoDup (set_values es);
  wf_deps :
    ∃ ds, heap w !! depsState (book w) = Some (OArr ds) ∧
          length ds = length (srcs w);
  wf_prevDeps :
    ∀ p, prevDepsState (book w) = Some p →
         ∃ pds, heap w !! p = Some (OArr pds);
}.

(** What the listener side (subscribe, unsubscribe, a fan-out) may do to
    a world: allocate, delete members of Sets, replace the [listeners]
    field and append invocations.  Arrays and the other bookkeeping
    fields stay as they are. *)
Record evolves (w w' : World) : Prop := mk_evolves {
  ev_next : next w ≤ next w';
  ev_arr : ∀ a vs, heap w !! a = Some (OArr vs) → heap w' !! a = Some (OArr vs);
  ev_set : ∀ a es, heap w !! a = Some (OSet es) →
             ∃ es', heap w' !! a = Some (OSet es') ∧
                    length es' = length es ∧
                    set_values es' ⊆ set_values es;
  ev_depsState : depsState (book w') = depsState (book w);
  ev_prevDepsState : prevDepsState (book w') = prevDepsState (book w);
  ev_state : state (book w') = state (book w);
  ev_prevState : prevState (book w') = prevState (book w);
  ev_depsSubs : depsSubs (book w') = depsSubs (book w);
  ev_srcs : srcs w' = srcs w;
  ev_calls : calls w `prefix_of` calls w';
}.

Section Derive.

(** The combine function passed to [derive]: it reads the two tuples
    and the previous derived value, and returns or throws. *)
Variable onChange :
  list value → option (list value) → value → completion value.

(** The code of every listener value. *)
Variable behaviour : listener → list action.

(** *** The facade (lines 115-135) *)

Definition getState : M value :=
  let! b := store_getState in
  ret (state b).

(** The closure returned by [subscribe] (lines 124-130). *)
Definition unsubscribe (listener : listener) : M unit :=
  let! b := store_getState in
  let listeners := listeners b in
  let! es := read_set listeners in
  write listeners (OSet (set_delete es listener)) ;;
  store_setState
    {| p_listeners := Some listeners; p_depsState := None;
       p_prevDepsState := None; p_state := None; p_prevState := None;
       p_depsSubs := None |}.

(** [subscribe] (lines 117-131); the handle it returns is
    [unsubscribe listener]. *)
Definition subscribe (listener : listener) : M unit :=
  let! b := store_getState in
  let! es := read_set (listeners b) in
  let! newListeners := alloc (OSet (set_of_list (set_values es ++ [listener]))) in
  store_setState
    {| p_listeners := Some newListeners; p_depsState := None;
       p_prevDepsState := None; p_state := None; p_prevState := None;
       p_depsSubs := None |}.

Definition setState (arg : value) : M unit :=
  throw (SetStateError "`setState` is not available in derived store").

(** *** Calling a listener *)

Definition run_action (a : action) : M unit :=
  match a with
  | ActSubscribe l => subscribe l
  | ActUnsubscribe l => unsubscribe l
  | ActSetState arg => setState arg
  | ActThrow v => throw (Thrown v)
  end.

Fixpoint run_script (s : list action) : M unit :=
  match s with
  | [] => ret tt
  | a :: s' => run_action a ;; run_script s'
  end.

Definition invoke (newState prev : value) (l : listener) : M unit :=
  record (mkCall l newState prev) ;;
  run_script (behaviour l).

(** *** The source-change reaction (lines 83-110) *)

Definition reaction (index : nat) (depState prevDepState : value) : M unit :=
  let! b := store_getState in
  let currentDepsState := depsState b in
  let! cur := read_arr currentDepsState in
  let! newDepsState := alloc (OArr cur) in
  let! copy := read_arr newDepsState in
  write newDepsState (OArr (js_array_set copy index depState)) ;;
  let! b := store_getState in
  let prevState := state b in
  let! new := read_arr newDepsState in
  let! cur := read_arr currentDepsState in
  let! newState := lift (onChange new (Some cur) prevState) in
  store_setState
    {| p_prevDepsState := Some (Some currentDepsState);
       p_depsState := Some newDepsState;
       p_prevState := Some prevState;
       p_state := Some newState;
       p_listeners := None; p_depsSubs := None |} ;;
  let! b := store_getState in
  set_forEach (listeners b) (invoke newState (coalesce prevState newState)).

(** *** Construction (lines 45-80, 82, 113) *)

Definition derive (stores : list value) : completion World :=
  let initialDepsState := 0 in
  let h1 := <[initialDepsState := OArr stores]> (∅ : gmap nat obj) in
  let listeners0 := 1 in
  let h2 := <[listeners0 := OSet []]> h1 in
  match onChange stores None VNull with
  | Throw e => Throw e
  | Normal s0 =>
      let b := {| listeners := listeners0;
                  depsState := initialDepsState;
                  prevDepsState := None;
                  state := s0;
                  prevState := VNull;
                  depsSubs := [] |} in
      let depsSubs := imap (λ index _, index) stores in
      Normal {| heap := h2; next := 2;
                book := merge b
                          {| p_depsSubs := Some depsSubs;
                             p_listeners := None; p_depsState := None;
                             p_prevDepsState := None; p_state := None;
                             p_prevState := None |};
                calls := [];
                srcs := stores |}
  end.

(** Modelled from the spec: the base [Store] is imported from "." and
    is not part of the sources.  A source store holds one value; when
    it changes, the store takes its new state [x] and then notifies its
    subscribers with the new and the previous state.  After
    construction the only subscriber this development follows is the
    reaction that [derive] registered for that index. *)
Definition source_setState (i : nat) (x : value) : M unit :=
  λ w, match srcs w !! i with
       | None => (Normal tt, w)
       | Some prev => reaction i x prev (with_srcs (<[i:=x]> (srcs w)) w)
       end.

(** *** Runs *)

(** What the environment can do with a derived store: change a
    source, or call one of the facade's operations.  [EUnsubscribe l]
    is a call of a handle that an earlier [subscribe l] returned. *)
Definition step (e : event) : M unit :=
  match e with
  | ESource i x => source_setState i x
  | ESubscribe l => subscribe l
  | EUnsubscribe l => unsubscribe l
  | ESetState arg => setState arg
  end.

(** A caller that catches what is thrown goes on with the world as the
    throw left it. *)
Definition run (evs : list event) (w : World) : World :=
  foldl (λ w e, (step e w).2) w evs.

Inductive reachable (stores : list value) : World → Prop :=
| reach_derive w :
    derive stores = Normal w → reachable stores w
| reach_step w e :
    reachable stores w → reachable stores (step e w).2.

(** The derived value is what [onChange] gives on the stored
    bookkeeping fields. *)
Definition consistent (w : World) : Prop :=
  ∃ ds pds,
    deps_of w = Some ds ∧ prevDeps_of w = Some pds ∧
    onChange ds pds (prevState (book w)) = Normal (state (book w)).

(** A listener whose code does not throw. *)
Definition calm (l : listener) : Prop :=
  Forall returns (behaviour l).

(** The code of [l'] does not call the handle of [l]. *)
Definition spares (l' l : listener) : Prop :=
  ActUnsubscribe l ∉ behaviour l'.

(** No listener's code subscribes [l]. *)
Definition never_subscribes (l : listener) : Prop :=
  ∀ l', ActSubscribe l ∉ behaviour l'.

End Derive.

(** ** The worlds the operations produce

    Closed forms of the effect of each operation, used to state what an
    operation returns. *)

(** After the handle of [listener] ran on a world whose listener Set
    holds the entries [es]. *)
Definition unsubscribed (listener : listener) (es : list (option nat))
    (w : World) : World :=
  with_book
    (merge (book w)
       {| p_listeners := Some (listeners (book w)); p_depsState := None;
          p_prevDepsState := None; p_state := None; p_prevState := None;
          p_depsSubs := None |})
    (with_heap (<[listeners (book w) := OSet (set_delete es listener)]> (heap w))
       (next w) w).

(** After [subscribe listener]. *)
Definition subscribed (listener : listener) (es : list (option nat))
    (w : World) : World :=
  with_book
    (merge (book w)
       {| p_listeners := Some (next w); p_depsState := None;
          p_prevDepsState := None; p_state := None; p_prevState := None;
          p_depsSubs := None |})
    (with_heap
       (<[next w := OSet (set_of_list (set_values es ++ [listener]))]> (heap w))
       (S (next w)) w).

(** After line 91 of a reaction: only the new tuple exists. *)
Definition copied (index : nat) (depState : value) (cur : list value)
    (w : World) : World :=
  with_heap (<[next w := OArr (js_array_set cur index depState)]> (heap w))
    (S (next w)) w.

(** After line 102 of a reaction: the bookkeeping store is written. *)
Definition recomputed (index : nat) (depState newState : value)
    (cur : list value) (w : World) : World :=
  with_book
    (merge (book w)
       {| p_prevDepsState := Some (Some (depsState (book w)));
          p_depsState := Some (next w);
          p_prevState := Some (state (book w));
          p_state := Some newState;
          p_listeners := None; p_depsSubs := None |})
    (copied index depState cur w).

(** ** A concrete store

    Two numeric sources holding 2 and 3, combined by addition (the
    combine function throws on anything that is not a pair of
    numbers). *)

Module Example.

Definition sum (depsState : list value) (prevDepsState : option (list value))
    (prevState : value) : completion value :=
  match depsState with
  | [VNum a; VNum b] => Normal (VNum (a + b))
  | _ => Throw (Thrown (VStr "not a number"))
  end.

(** Listeners that only observe. *)
Definition inert (l : listener) : list action := [].

(** Listener 7 calls the handle of listener 8 when it is notified. *)
Definition remover (l : listener) : list action :=
  if decide (l = 7) then [ActUnsubscribe 8] else [].

Definition stores : list value := [VNum 2; VNum 3].

Definition built (c : completion World) : World :=
  match c with
  | Normal w => w
  | Throw _ => mkWorld ∅ 0 (mkBook 0 0 None VNull VNull []) [] []
  end.

(** The derived store right after [derive([s0, s1], sum)]. *)
Definition start : World := built (derive sum stores).

(** One listener subscribed. *)
Definition observed : World := run sum inert [ESubscribe 5] start.

(** The same listener value subscribed twice, then one of the two
    handles called. *)
Definition twice : World := run sum inert [ESubscribe 5; ESubscribe 5] start.
Definition once_removed : World := run sum inert [EUnsubscribe 5] twice.

(** Listener 7 (which removes 8) and listener 8, subscribed in that
    order. *)
Definition rivals : World := run sum remover [ESubscribe 7; ESubscribe 8] start.

(** Listener 7 first subscribes listener 9 and then calls the handle of
    listener 8. *)
Definition late_remover (l : listener) : list action :=
  if decide (l = 7) then [ActSubscribe 9; ActUnsubscribe 8] else [].

Definition late_rivals : World :=
  run sum late_remover [ESubscribe 7; ESubscribe 8] start.

End Example.

(** ** Further concrete stores *)

Module Scenario.

(** A combine function that never throws: the derived value is the
    first source's value ([null] when there is no source). *)
Definition first (depsState : list value) (prevDepsState : option (list value))
    (prevState : value) : completion value :=
  Normal (default VNull (head depsState)).

(** Listener 3 throws as soon as it is called. *)
Definition thrower (l : listener) : list action :=
  if decide (l = 3) then [ActThrow (VStr "boom")] else [].

(** Listener 3 (which throws) and listener 4, subscribed in that
    order, on the store of the two numeric sources. *)
Definition doomed : World :=
  run Example.sum thrower [ESubscribe 3; ESubscribe 4] Example.start.

(** Listeners 5 and 6, which only observe. *)
Definition watched : World :=
  run Example.sum Example.inert [ESubscribe 5; ESubscribe 6] Example.start.

(** A store whose derived value is the first source's value, with one
    listener, after the first source became [null]. *)
Definition nulled : World :=
  run first Example.inert [ESubscribe 5; ESource 0 VNull]
    (Example.built (derive first Example.stores)).

(** Inside the fan-out of the change of source 0 to 10 on
    [Example.late_rivals]: the bookkeeping store has been written
    (derived value 13, old value 5) and listener 7, the first member,
    has just run. *)
Definition after_seven : World :=
  (invoke Example.late_remover (VNum 13) (VNum 5) 7
     (recomputed 0 (VNum 10) (VNum 13) [VNum 2; VNum 3]
        (with_srcs (<[0:=VNum 10]> (srcs Example.late_rivals))
           Example.late_rivals))).2.

(** Listener 7 subscribes listener 8 whenever it is called. *)
Definition resubscriber (l : listener) : list action :=
  if decide (l = 7) then [ActSubscribe 8] else [].

(** Listeners 7 and 8 subscribed, then the handle of 8 called by the
    store's user. *)
Definition dropped : World :=
  run Example.sum resubscriber
    [ESubscribe 7; ESubscribe 8; EUnsubscribe 8] Example.start.

End Scenario.

(** * Properties *)

(** ** Sets as entry lists *)

Lemma set_values_app es1 es2 :
  set_values (es1 ++ es2) = set_values es1 ++ set_values es2.
Proof. unfold set_values. apply omap_app. Qed.

Lemma set_values_Some (xs : list nat) : set_values (Some <$> xs) = xs.
Proof.
  unfold set_values. induction xs as [|x xs IH]; simpl; [done|].
  f_equal. exact IH.
Qed.

Lemma elem_of_set_values es (x : nat) : x ∈ set_values es ↔ Some x ∈ es.
Proof.
  unfold set_values. rewrite list_elem_of_omap. split.
  - intros ([y|] & Hy & Heq); simplify_eq/=. done.
  - intros H. exists (Some x). done.
Qed.

Lemma set_add_values es x :
  set_values (set_add es x) =
  if decide (x ∈ set_values es) then set_values es else set_values es ++ [x].
Proof.
  unfold set_add. case_decide; [done|].
  by rewrite set_values_app.
Qed.

Lemma set_add_NoDup es x :
  NoDup (set_values es) → NoDup (set_values (set_add es x)).
Proof.
  intros Hnd. rewrite set_add_values. case_decide; [done|].
  apply NoDup_app. split_and!; [done| |apply NoDup_singleton].
  intros y Hy ->%list_elem_of_singleton. done.
Qed.

Lemma set_of_list_snoc xs x :
  set_of_list (xs ++ [x]) = set_add (set_of_list xs) x.
Proof. unfold set_of_list. by rewrite foldl_app. Qed.

Lemma set_of_list_NoDup xs : NoDup (set_values (set_of_list xs)).
Proof.
  induction xs as [|x xs IH] using rev_ind.
  - apply NoDup_nil_2.
  - rewrite set_of_list_snoc. by apply set_add_NoDup.
Qed.

Lemma elem_of_set_of_list xs (y : nat) :
  y ∈ set_values (set_of_list xs) ↔ y ∈ xs.
Proof.
  revert y. induction xs as [|x xs IH] using rev_ind; intros y.
  - done.
  - rewrite set_of_list_snoc, set_add_values, elem_of_app, list_elem_of_singleton.
    case_decide as Hx.
    + rewrite IH. rewrite IH in Hx. split; [auto|]. by intros [?| ->].
    + rewrite elem_of_app, list_elem_of_singleton, IH. done.
Qed.

(** Building a Set from a duplicate-free list keeps the list. *)
Lemma set_of_list_id xs : NoDup xs → set_of_list xs = Some <$> xs.
Proof.
  induction xs as [|x xs IH] using rev_ind; [done|].
  intros [Hnd [Hx _]]%NoDup_app.
  rewrite set_of_list_snoc, IH by done.
  unfold set_add. rewrite set_values_Some.
  case_decide as Hin.
  - exfalso. apply (Hx x); [done|]. apply list_elem_of_singleton. done.
  - by rewrite fmap_app.
Qed.

Lemma length_set_delete es x : length (set_delete es x) = length es.
Proof. unfold set_delete. apply length_fmap. Qed.

Lemma set_delete_lookup es x k :
  set_delete es x !! k =
  (λ e, if decide (e = Some x) then None else e) <$> es !! k.
Proof. unfold set_delete. apply list_lookup_fmap. Qed.

Lemma elem_of_set_delete es (x y : nat) :
  y ∈ set_values (set_delete es x) ↔ y ∈ set_values es ∧ y ≠ x.
Proof.
  rewrite !elem_of_set_values. unfold set_delete.
  rewrite list_elem_of_fmap. split.
  - intros (e & He & Hin). case_decide; simplify_eq. split; [done|congruence].
  - intros [Hin Hne]. exists (Some y). split; [|done].
    case_decide; congruence.
Qed.

Lemma set_delete_NoDup es x :
  NoDup (set_values es) → NoDup (set_values (set_delete es x)).
Proof.
  unfold set_values, set_delete. induction es as [|[y|] es IH]; simpl; [done| |done].
  intros [Hy Hnd]%NoDup_cons. case_decide; simpl; [by apply IH|].
  apply NoDup_cons. split; [|by apply IH].
  intros Hin. apply Hy.
  by apply (elem_of_set_delete es x y).
Qed.

(** Deleting a value that is not a member changes nothing. *)
Lemma set_delete_absent es x :
  x ∉ set_values es → set_delete es x = es.
Proof.
  intros Hx. unfold set_delete. rewrite <- (list_fmap_id es) at 2.
  apply list_fmap_ext. intros _ e He%list_elem_of_lookup_2. simpl.
  case_decide; [|done]. subst. by apply elem_of_set_values in He.
Qed.

(** ** The operations in closed form *)

Lemma unsubscribe_eq l w es :
  heap w !! listeners (book w) = Some (OSet es) →
  unsubscribe l w = (Normal tt, unsubscribed l es w).
Proof.
  intros Hes. unfold unsubscribe, bind, store_getState, read_set. simpl.
  rewrite Hes. done.
Qed.

Lemma subscribe_eq l w es :
  heap w !! listeners (book w) = Some (OSet es) →
  subscribe l w = (Normal tt, subscribed l es w).
Proof.
  intros Hes. unfold subscribe, bind, store_getState, read_set. simpl.
  rewrite Hes. done.
Qed.

Section Reaction.

Variable onChange :
  list value → option (list value) → value → completion value.
Variable behaviour : listener → list action.

Lemma reaction_eq index depState prevDepState w cur :
  heap w !! depsState (book w) = Some (OArr cur) →
  depsState (book w) < next w →
  reaction onChange behaviour index depState prevDepState w =
  match onChange (js_array_set cur index depState) (Some cur) (state (book w)) with
  | Normal newState =>
      set_forEach (listeners (book w))
        (invoke behaviour newState (coalesce (state (book w)) newState))
        (recomputed index depState newState cur w)
  | Throw e => (Throw e, copied index depState cur w)
  end.
Proof.
  intros Hcur Hlt.
  unfold reaction, bind, store_getState, read_arr, alloc, write, lift. simpl.
  rewrite Hcur. simpl. rewrite lookup_insert_eq. simpl.
  rewrite lookup_insert_eq. unfold with_heap at 1 2 3. simpl.
  rewrite !lookup_insert_ne, Hcur by lia.
  unfold recomputed, copied, with_heap, with_book. simpl.
  rewrite insert_insert_eq.
  destruct (onChange _ _ _) as [newState|e]; done.
Qed.

End Reaction.

(** ** Invariants carried through scripts and fan-outs *)

Lemma run_script_inv (I : World → Prop) script :
  (∀ a w, a ∈ script → I w → I (run_action a w).2) →
  ∀ w, I w → I (run_script script w).2.
Proof.
  induction script as [|a script IH]; intros Hstep w HI; [done|].
  simpl. unfold bind.
  specialize (Hstep a w) as Ha.
  destruct (run_action a w) as [[[]|e] w1]; simpl in *.
  - apply IH; [|apply Ha; [left|done]].
    intros a' w' Hin. apply Hstep. by right.
  - apply Ha; [left|done].
Qed.

Lemma set_forEach_from_inv (I : World → Prop) s callbackfn :
  (∀ l w es k, I w → heap w !! s = Some (OSet es) →
               es !! k = Some (Some l) → I (callbackfn l w).2) →
  ∀ steps index w, I w → I (set_forEach_from steps index s callbackfn w).2.
Proof.
  intros Hcb. induction steps as [|steps IH]; intros index w HI; [done|].
  simpl. unfold bind at 1, read_set.
  destruct (heap w !! s) as [[vs|es]|] eqn:Hs; simpl; try done.
  destruct (es !! index) as [[l|]|] eqn:Hk; simpl; try done.
  - unfold bind. specialize (Hcb l w es index HI Hs Hk).
    destruct (callbackfn l w) as [[[]|e] w1]; simpl in *; [|done].
    by apply IH.
  - unfold bind. simpl. by apply IH.
Qed.

Lemma set_forEach_inv (I : World → Prop) s callbackfn :
  (∀ l w es k, I w → heap w !! s = Some (OSet es) →
               es !! k = Some (Some l) → I (callbackfn l w).2) →
  ∀ w, I w → I (set_forEach s callbackfn w).2.
Proof.
  intros Hcb w HI. unfold set_forEach, bind, read_set.
  destruct (heap w !! s) as [[vs|es]|]; simpl; try done.
  by apply set_forEach_from_inv.
Qed.

(** ** Well-formed worlds *)

Lemma wf_subscribed l es w :
  wf w → heap w !! listeners (book w) = Some (OSet es) →
  wf (subscribed l es w).
Proof.
  intros [Hb (es' & Hes & Hnd) (ds & Hds & Hlen) Hp] Hl.
  assert (Hfresh : ∀ a o, heap w !! a = Some o → next w ≠ a).
  { intros a o Ha <-. specialize (Hb (next w) (mk_is_Some _ _ Ha)). lia. }
  split; simpl.
  - intros a [o Ha]. destruct (decide (a = next w)) as [->|Hne]; [lia|].
    rewrite lookup_insert_ne in Ha by done.
    specialize (Hb a (mk_is_Some _ _ Ha)). lia.
  - eexists. rewrite lookup_insert_eq. split; [done|].
    apply set_of_list_NoDup.
  - exists ds. rewrite lookup_insert_ne by eauto. done.
  - intros p Hpp. destruct (Hp p Hpp) as (pds & Hpds).
    exists pds. rewrite lookup_insert_ne by eauto. done.
Qed.

Lemma wf_unsubscribed l es w :
  wf w → heap w !! listeners (book w) = Some (OSet es) →
  wf (unsubscribed l es w).
Proof.
  intros [Hb (es' & Hes & Hnd) (ds & Hds & Hlen) Hp] Hl.
  assert (es' = es) as -> by congruence.
  split; simpl.
  - intros a [o Ha]. destruct (decide (a = listeners (book w))) as [->|Hne].
    + apply Hb. by eexists.
    + rewrite lookup_insert_ne in Ha by done. apply Hb. by eexists.
  - eexists. rewrite lookup_insert_eq. split; [done|].
    by apply set_delete_NoDup.
  - exists ds. rewrite lookup_insert_ne by congruence. done.
  - intros p Hpp. destruct (Hp p Hpp) as (pds & Hpds).
    exists pds. rewrite lookup_insert_ne by congruence. done.
Qed.

Lemma wf_recorded c w : wf w → wf (with_calls (calls w ++ [c]) w).
Proof. intros [? ? ? ?]. by split. Qed.

Lemma wf_run_action a w : wf w → wf (run_action a w).2.
Proof.
  intros Hwf. destruct (wf_listeners _ Hwf) as (es & Hes & _).
  destruct a as [l|l|arg|v]; simpl.
  - rewrite (subscribe_eq _ _ _ Hes). by apply wf_subscribed.
  - rewrite (unsubscribe_eq _ _ _ Hes). by apply wf_unsubscribed.
  - done.
  - done.
Qed.

Lemma wf_run_script script w : wf w → wf (run_script script w).2.
Proof. apply (run_script_inv wf). intros a w' _. apply wf_run_action. Qed.

Lemma wf_invoke behaviour newState prev l w :
  wf w → wf (invoke behaviour newState prev l w).2.
Proof.
  intros Hwf. unfold invoke, bind, record. simpl.
  by apply wf_run_script, wf_recorded.
Qed.

Lemma wf_set_forEach behaviour newState prev s w :
  wf w → wf (set_forEach s (invoke behaviour newState prev) w).2.
Proof.
  apply (set_forEach_inv wf). intros l w' es k Hwf _ _. by apply wf_invoke.
Qed.

Lemma length_js_array_set vs i v :
  i < length vs → length (js_array_set vs i v) = length vs.
Proof.
  intros Hi. unfold js_array_set. rewrite decide_True by done.
  apply length_insert.
Qed.

Lemma js_array_set_in_range vs i v :
  i < length vs → js_array_set vs i v = <[i:=v]> vs.
Proof. intros Hi. unfold js_array_set. by rewrite decide_True. Qed.

Lemma wf_copied index depState cur w :
  wf w → heap w !! depsState (book w) = Some (OArr cur) →
  wf (copied index depState cur w).
Proof.
  intros [Hb (es & Hes & Hnd) (ds & Hds & Hlen) Hp] Hcur.
  assert (Hfresh : ∀ a o, heap w !! a = Some o → next w ≠ a).
  { intros a o Ha <-. specialize (Hb (next w) (mk_is_Some _ _ Ha)). lia. }
  split; simpl.
  - intros a [o Ha]. destruct (decide (a = next w)) as [->|Hne]; [lia|].
    rewrite lookup_insert_ne in Ha by done.
    specialize (Hb a (mk_is_Some _ _ Ha)). lia.
  - exists es. rewrite lookup_insert_ne by eauto. done.
  - exists ds. rewrite lookup_insert_ne by eauto. done.
  - intros p Hpp. destruct (Hp p Hpp) as (pds & Hpds).
    exists pds. rewrite lookup_insert_ne by eauto. done.
Qed.

Lemma wf_recomputed index depState newState cur w :
  wf w → heap w !! depsState (book w) = Some (OArr cur) →
  index < length cur →
  wf (recomputed index depState newState cur w).
Proof.
  intros [Hb (es & Hes & Hnd) (ds & Hds & Hlen) Hp] Hcur Hi.
  assert (ds = cur) as -> by congruence.
  assert (Hfresh : ∀ a o, heap w !! a = Some o → next w ≠ a).
  { intros a o Ha <-. specialize (Hb (next w) (mk_is_Some _ _ Ha)). lia. }
  split; simpl.
  - intros a [o Ha]. destruct (decide (a = next w)) as [->|Hne]; [lia|].
    rewrite lookup_insert_ne in Ha by done.
    specialize (Hb a (mk_is_Some _ _ Ha)). lia.
  - exists es. rewrite lookup_insert_ne by eauto. done.
  - eexists. rewrite lookup_insert_eq. split; [done|].
    by rewrite length_js_array_set.
  - intros p [= <-]. exists cur.
    rewrite lookup_insert_ne by eauto. done.
Qed.

Section WellFormed.

Variable onChange :
  list value → option (list value) → value → completion value.
Variable behaviour : listener → list action.

Lemma wf_reaction index depState prevDepState w :
  wf w → index < length (srcs w) →
  wf (reaction onChange behaviour index depState prevDepState w).2.
Proof.
  intros Hwf Hi. destruct (wf_deps _ Hwf) as (cur & Hcur & Hlen).
  rewrite (reaction_eq _ _ _ _ _ _ cur) by
    (try done; apply (wf_bound _ Hwf); by eexists).
  destruct (onChange _ _ _) as [newState|e]; simpl.
  - apply wf_set_forEach, wf_recomputed; [done..|lia].
  - by apply wf_copied.
Qed.

Lemma wf_with_srcs i x w : wf w → wf (with_srcs (<[i:=x]> (srcs w)) w).
Proof.
  intros [Hb Hl (ds & Hds & Hlen) Hp]. split; try done.
  exists ds. simpl. by rewrite length_insert.
Qed.

Lemma wf_source_setState i x w :
  wf w → wf (source_setState onChange behaviour i x w).2.
Proof.
  intros Hwf. unfold source_setState.
  destruct (srcs w !! i) as [prev|] eqn:Hi; [|done].
  apply wf_reaction; [by apply wf_with_srcs|].
  simpl. rewrite length_insert. by eapply lookup_lt_Some.
Qed.

Lemma wf_step e w : wf w → wf (step onChange behaviour e w).2.
Proof.
  intros Hwf. destruct e as [i x|l|l|arg]; simpl.
  - by apply wf_source_setState.
  - by apply (wf_run_action (ActSubscribe l)).
  - by apply (wf_run_action (ActUnsubscribe l)).
  - done.
Qed.

Lemma wf_derive stores w : derive onChange stores = Normal w → wf w.
Proof.
  unfold derive. destruct (onChange stores None VNull) as [s0|e]; [|done].
  intros [= <-]. split; simpl.
  - intros a [o Ha].
    destruct (decide (a = 1)) as [->|]; [lia|].
    rewrite lookup_insert_ne in Ha by done.
    destruct (decide (a = 0)) as [->|]; [lia|].
    by rewrite lookup_insert_ne in Ha.
  - exists []. split; [done|]. apply NoDup_nil_2.
  - exists stores. done.
  - done.
Qed.

Lemma reachable_wf stores w : reachable onChange behaviour stores w → wf w.
Proof.
  induction 1 as [w Hw|w e _ IH]; [by eapply wf_derive|by apply wf_step].
Qed.

End WellFormed.

(** ** What the listener side can change *)

Lemma evolves_refl w : evolves w w.
Proof.
  split; try done.
  intros a es Ha. exists es. done.
Qed.

Lemma evolves_trans w1 w2 w3 : evolves w1 w2 → evolves w2 w3 → evolves w1 w3.
Proof.
  intros [Hn1 Ha1 Hs1 ? ? ? ? ? ? Hc1] [Hn2 Ha2 Hs2 ? ? ? ? ? ? Hc2].
  split; try congruence.
  - lia.
  - auto.
  - intros a es Ha. destruct (Hs1 a es Ha) as (es' & Hes' & Hlen' & Hsub').
    destruct (Hs2 a es' Hes') as (es'' & Hes'' & Hlen'' & Hsub'').
    exists es''. split_and!; [done|congruence|].
    by etrans.
  - by etrans.
Qed.

Lemma evolves_subscribed l es w : wf w → evolves w (subscribed l es w).
Proof.
  intros Hwf.
  assert (Hfresh : ∀ a o, heap w !! a = Some o → next w ≠ a).
  { intros a o Ha <-. pose proof (wf_bound _ Hwf (next w) (mk_is_Some _ _ Ha)). lia. }
  split; simpl; try done.
  - lia.
  - intros a vs Ha. rewrite lookup_insert_ne by eauto. done.
  - intros a es' Ha. exists es'. rewrite lookup_insert_ne by eauto. done.
Qed.

Lemma evolves_unsubscribed l es w :
  heap w !! listeners (book w) = Some (OSet es) →
  evolves w (unsubscribed l es w).
Proof.
  intros Hes. split; simpl; try done.
  - intros a vs Ha. rewrite lookup_insert_ne by congruence. done.
  - intros a es' Ha. destruct (decide (listeners (book w) = a)) as [<-|Hne].
    + assert (es' = es) as -> by congruence.
      exists (set_delete es l). rewrite lookup_insert_eq.
      split_and!; [done|apply length_set_delete|].
      intros y Hy. by apply elem_of_set_delete in Hy as [? _].
    + exists es'. rewrite lookup_insert_ne by done. done.
Qed.

Lemma evolves_recorded c w : evolves w (with_calls (calls w ++ [c]) w).
Proof.
  split; simpl; try done.
  - intros a es Ha. exists es. done.
  - by apply prefix_app_r.
Qed.

Lemma evolves_run_action a w : wf w → evolves w (run_action a w).2.
Proof.
  intros Hwf. destruct (wf_listeners _ Hwf) as (es & Hes & _).
  destruct a as [l|l|arg|v]; simpl.
  - rewrite (subscribe_eq _ _ _ Hes). by apply evolves_subscribed.
  - rewrite (unsubscribe_eq _ _ _ Hes). by apply evolves_unsubscribed.
  - apply evolves_refl.
  - apply evolves_refl.
Qed.

Lemma evolves_run_script script w : wf w → evolves w (run_script script w).2.
Proof.
  intros Hwf.
  apply (run_script_inv (λ w', wf w' ∧ evolves w w')); [|split; [done|apply evolves_refl]].
  intros a w' _ [Hwf' Hev]. split; [by apply wf_run_action|].
  eapply evolves_trans; [done|]. by apply evolves_run_action.
Qed.

Lemma evolves_invoke behaviour newState prev l w :
  wf w → evolves w (invoke behaviour newState prev l w).2.
Proof.
  intros Hwf. unfold invoke, bind, record. simpl.
  eapply evolves_trans; [apply evolves_recorded|].
  by apply evolves_run_script, wf_recorded.
Qed.

Lemma evolves_set_forEach behaviour newState prev s w :
  wf w → evolves w (set_forEach s (invoke behaviour newState prev) w).2.
Proof.
  intros Hwf.
  apply (set_forEach_inv (λ w', wf w' ∧ evolves w w')); [|split; [done|apply evolves_refl]].
  intros l w' es k [Hwf' Hev] _ _. split; [by apply wf_invoke|].
  eapply evolves_trans; [done|]. by apply evolves_invoke.
Qed.

Lemma evolves_deps_of w w' ds :
  evolves w w' → deps_of w = Some ds → deps_of w' = Some ds.
Proof.
  intros Hev. unfold deps_of. rewrite (ev_depsState _ _ Hev).
  destruct (heap w !! depsState (book w)) as [[vs|]|] eqn:Hvs; try done.
  intros [= <-]. by rewrite (ev_arr _ _ Hev _ _ Hvs).
Qed.

Lemma evolves_prevDeps_of w w' pds :
  evolves w w' → prevDeps_of w = Some pds → prevDeps_of w' = Some pds.
Proof.
  intros Hev. unfold prevDeps_of. rewrite (ev_prevDepsState _ _ Hev).
  destruct (prevDepsState (book w)) as [p|]; [|done].
  destruct (heap w !! p) as [[vs|]|] eqn:Hvs; try done.
  intros [= <-]. by rewrite (ev_arr _ _ Hev _ _ Hvs).
Qed.

Lemma wf_next_free w : wf w → heap w !! next w = None.
Proof.
  intros Hwf. destruct (heap w !! next w) as [o|] eqn:Ho; [|done].
  pose proof (wf_bound _ Hwf (next w) (mk_is_Some _ _ Ho)). lia.
Qed.

Lemma evolves_copied index depState cur w :
  wf w → evolves w (copied index depState cur w).
Proof.
  intros Hwf. pose proof (wf_next_free _ Hwf) as Hfree.
  split; simpl; try done.
  - lia.
  - intros a vs Ha. rewrite lookup_insert_ne by congruence. done.
  - intros a es Ha. exists es. rewrite lookup_insert_ne by congruence. done.
Qed.

(** ** Consistency of the derived value *)

Section Consistency.

Variable onChange :
  list value → option (list value) → value → completion value.
Variable behaviour : listener → list action.

Lemma consistent_evolves w w' :
  evolves w w' → consistent onChange w → consistent onChange w'.
Proof.
  intros Hev (ds & pds & Hds & Hpds & Hon).
  exists ds, pds. split_and!.
  - by eapply evolves_deps_of.
  - by eapply evolves_prevDeps_of.
  - by rewrite (ev_prevState _ _ Hev), (ev_state _ _ Hev).
Qed.

Lemma consistent_recomputed index depState newState cur w :
  wf w → heap w !! depsState (book w) = Some (OArr cur) →
  onChange (js_array_set cur index depState) (Some cur) (state (book w))
    = Normal newState →
  consistent onChange (recomputed index depState newState cur w).
Proof.
  intros Hwf Hcur Hon. pose proof (wf_next_free _ Hwf) as Hfree.
  exists (js_array_set cur index depState), (Some cur).
  unfold deps_of, prevDeps_of. simpl.
  rewrite lookup_insert_eq, lookup_insert_ne, Hcur by congruence. done.
Qed.

Lemma consistent_reaction index depState prevDepState w :
  wf w → index < length (srcs w) → consistent onChange w →
  consistent onChange
    (reaction onChange behaviour index depState prevDepState w).2.
Proof.
  intros Hwf Hi Hc. destruct (wf_deps _ Hwf) as (cur & Hcur & Hlen).
  assert (depsState (book w) < next w) as Hlt
    by (apply (wf_bound _ Hwf); by eexists).
  rewrite (reaction_eq _ _ _ _ _ _ cur) by done.
  destruct (onChange _ _ _) as [newState|e] eqn:Hon; simpl.
  - eapply consistent_evolves; [|by apply consistent_recomputed].
    apply evolves_set_forEach, wf_recomputed; [done..|lia].
  - eapply consistent_evolves; [|done]. by apply evolves_copied.
Qed.

Lemma consistent_step e w :
  wf w → consistent onChange w →
  consistent onChange (step onChange behaviour e w).2.
Proof.
  intros Hwf Hc. destruct e as [i x|l|l|arg]; simpl.
  - unfold source_setState.
    destruct (srcs w !! i) as [prev|] eqn:Hi; [|done].
    apply consistent_reaction; [by apply wf_with_srcs| |done].
    simpl. rewrite length_insert. by eapply lookup_lt_Some.
  - eapply consistent_evolves; [|done].
    by apply (evolves_run_action (ActSubscribe l)).
  - eapply consistent_evolves; [|done].
    by apply (evolves_run_action (ActUnsubscribe l)).
  - done.
Qed.

Lemma consistent_derive stores w :
  derive onChange stores = Normal w → consistent onChange w.
Proof.
  unfold derive. destruct (onChange stores None VNull) as [s0|e] eqn:Hon; [|done].
  intros [= <-]. exists stores, None. done.
Qed.

Lemma reachable_consistent stores w :
  reachable onChange behaviour stores w → consistent onChange w.
Proof.
  induction 1 as [w Hw|w e Hr IH]; [by eapply consistent_derive|].
  apply consistent_step; [by eapply reachable_wf|done].
Qed.

(** C2.  In every world reachable from construction by source changes
    and facade calls, [getState()] returns the stored derived value,
    and that value is [onChange(depsState, prevDepsState, prevState)]
    on the stored bookkeeping fields. *)
Theorem getState_consistent stores w :
  reachable onChange behaviour stores w →
  getState w = (Normal (state (book w)), w) ∧
  ∃ ds pds,
    deps_of w = Some ds ∧ prevDeps_of w = Some pds ∧
    onChange ds pds (prevState (book w)) = (getState w).1.
Proof.
  intros Hr. split; [done|].
  destruct (reachable_consistent _ _ Hr) as (ds & pds & ? & ? & ?).
  by exists ds, pds.
Qed.

(** C1.  When [onChange] returns on the sources' current values, the
    store that [derive] builds reports
    [onChange([v1..vn], null, null)], and its bookkeeping starts as
    [depsState = [v1..vn]], [prevDepsState = null], [prevState = null],
    with no listener and no invocation made. *)
Theorem derive_initial stores s0 :
  onChange stores None VNull = Normal s0 →
  ∃ w, derive onChange stores = Normal w ∧
       getState w = (Normal s0, w) ∧
       deps_of w = Some stores ∧
       prevDeps_of w = Some None ∧
       prevDepsState (book w) = None ∧
       prevState (book w) = VNull ∧
       listeners_of w = Some [] ∧
       calls w = [].
Proof.
  intros Hon. unfold derive. rewrite Hon. eexists. split; [done|].
  split_and!; done.
Qed.

(** C3.  [setState] on the facade throws [SetStateError] for every
    argument and in every world, and the world after the call is the
    world before it. *)
Theorem setState_read_only arg w :
  setState arg w =
    (Throw (SetStateError "`setState` is not available in derived store"), w)
  ∧ (getState (setState arg w).2).1 = (getState w).1
  ∧ book (setState arg w).2 = book w
  ∧ heap (setState arg w).2 = heap w.
Proof. done. Qed.

(** C4.  A reaction for an existing source index whose [onChange] call
    returns stores a tuple that is a new object, of the same length,
    holding the new value in slot [index] and the old values in the
    other slots; the old tuple object still holds its old content and
    is what [prevDepsState] refers to. *)
Theorem reaction_fresh_tuple stores w index depState prevDepState cur newState :
  reachable onChange behaviour stores w →
  deps_of w = Some cur →
  index < length cur →
  onChange (<[index:=depState]> cur) (Some cur) (state (book w))
    = Normal newState →
  let w' := (reaction onChange behaviour index depState prevDepState w).2 in
  ∃ new,
    deps_of w' = Some new ∧
    length new = length cur ∧
    new !! index = Some depState ∧
    (∀ j, j ≠ index → new !! j = cur !! j) ∧
    heap w !! depsState (book w') = None ∧
    depsState (book w') ≠ depsState (book w) ∧
    prevDepsState (book w') = Some (depsState (book w)) ∧
    heap w' !! depsState (book w) = Some (OArr cur) ∧
    prevDeps_of w' = Some (Some cur).
Proof.
  intros Hr Hdeps Hi Hon w'.
  pose proof (reachable_wf _ _ _ _ Hr) as Hwf.
  destruct (wf_deps _ Hwf) as (cur' & Hcur & Hlen).
  assert (cur' = cur) as ->.
  { unfold deps_of in Hdeps. rewrite Hcur in Hdeps. congruence. }
  assert (depsState (book w) < next w) as Hlt
    by (apply (wf_bound _ Hwf); by eexists).
  pose proof (wf_next_free _ Hwf) as Hfree.
  subst w'. rewrite (reaction_eq _ _ _ _ _ _ cur) by done.
  rewrite js_array_set_in_range, Hon by done.
  set (w1 := recomputed index depState newState cur w).
  assert (wf w1) as Hwf1.
  { apply wf_recomputed; try done. }
  pose proof (evolves_set_forEach behaviour newState
                (coalesce (state (book w)) newState)
                (listeners (book w)) w1 Hwf1) as Hev.
  set (w2 := (set_forEach _ _ w1).2) in *.
  assert (heap w1 !! next w = Some (OArr (<[index:=depState]> cur))) as Hnew.
  { simpl. rewrite lookup_insert_eq, js_array_set_in_range by done. done. }
  assert (heap w1 !! depsState (book w) = Some (OArr cur)) as Hold.
  { simpl. rewrite lookup_insert_ne by lia. done. }
  exists (<[index:=depState]> cur).
  rewrite (ev_depsState _ _ Hev), (ev_prevDepsState _ _ Hev). simpl.
  split_and!.
  - unfold deps_of. rewrite (ev_depsState _ _ Hev). simpl.
    by rewrite (ev_arr _ _ Hev _ _ Hnew).
  - apply length_insert.
  - by apply list_lookup_insert_eq.
  - intros j Hj. by apply list_lookup_insert_ne.
  - done.
  - lia.
  - done.
  - by apply (ev_arr _ _ Hev).
  - unfold prevDeps_of. rewrite (ev_prevDepsState _ _ Hev). simpl.
    by rewrite (ev_arr _ _ Hev _ _ Hold).
Qed.

(** C6 (amended).  When [onChange] throws in a reaction, the same
    exception leaves the reaction, before anything is written: the
    bookkeeping store, the existing objects and the log of
    invocations are as before, and the derived value is still
    consistent with the stored fields.  Only the tuple that was being
    prepared has been allocated. *)
Theorem reaction_onChange_throws stores w index depState prevDepState cur e :
  reachable onChange behaviour stores w →
  deps_of w = Some cur →
  onChange (js_array_set cur index depState) (Some cur) (state (book w))
    = Throw e →
  let r := reaction onChange behaviour index depState prevDepState w in
  r.1 = Throw e ∧
  book r.2 = book w ∧
  calls r.2 = calls w ∧
  (∀ a o, heap w !! a = Some o → heap r.2 !! a = Some o) ∧
  deps_of r.2 = Some cur ∧
  consistent onChange r.2.
Proof.
  intros Hr Hdeps Hon r.
  pose proof (reachable_wf _ _ _ _ Hr) as Hwf.
  destruct (wf_deps _ Hwf) as (cur' & Hcur & Hlen).
  assert (cur' = cur) as ->.
  { unfold deps_of in Hdeps. rewrite Hcur in Hdeps. congruence. }
  assert (depsState (book w) < next w) as Hlt
    by (apply (wf_bound _ Hwf); by eexists).
  pose proof (wf_next_free _ Hwf) as Hfree.
  subst r. rewrite (reaction_eq _ _ _ _ _ _ cur), Hon by done. simpl.
  split_and!; try done.
  - intros a o Ha. rewrite lookup_insert_ne by congruence. done.
  - unfold deps_of. simpl. rewrite lookup_insert_ne, Hcur by lia. done.
  - eapply consistent_evolves; [by apply evolves_copied|].
    by eapply reachable_consistent.
Qed.

End Consistency.

(** ** Who is called, and with what *)

Lemma run_action_calls a w : calls (run_action a w).2 = calls w.
Proof.
  destruct a as [l|l|arg|v]; simpl; [| |done..].
  - unfold subscribe, bind, store_getState, read_set. simpl.
    by destruct (heap w !! listeners (book w)) as [[|]|].
  - unfold unsubscribe, bind, store_getState, read_set. simpl.
    by destruct (heap w !! listeners (book w)) as [[|]|].
Qed.

Lemma run_script_calls script w : calls (run_script script w).2 = calls w.
Proof.
  apply (run_script_inv (λ w', calls w' = calls w)); [|done].
  intros a w' _ <-. apply run_action_calls.
Qed.

Lemma invoke_calls behaviour newState prev l w :
  calls (invoke behaviour newState prev l w).2 =
  calls w ++ [mkCall l newState prev].
Proof. unfold invoke, bind, record. simpl. by rewrite run_script_calls. Qed.

(** A fan-out calls members of the Set it started on, all with the same
    two arguments. *)
Lemma set_forEach_calls behaviour newState prev s w es0 :
  wf w → heap w !! s = Some (OSet es0) →
  ∃ ls, calls (set_forEach s (invoke behaviour newState prev) w).2 =
          calls w ++ ((λ l, mkCall l newState prev) <$> ls) ∧
        ls ⊆ set_values es0.
Proof.
  intros Hwf Hs.
  apply (set_forEach_inv (λ w', wf w' ∧ evolves w w' ∧
           ∃ ls, calls w' = calls w ++ ((λ l, mkCall l newState prev) <$> ls) ∧
                 ls ⊆ set_values es0)).
  - intros l w' es k (Hwf' & Hev & ls & Hcalls & Hsub) Hes Hk.
    split_and!.
    + by apply wf_invoke.
    + eapply evolves_trans; [done|]. by apply evolves_invoke.
    + exists (ls ++ [l]). rewrite invoke_calls, Hcalls, fmap_app, app_assoc.
      split; [done|].
      intros y [Hy | ->%list_elem_of_singleton]%elem_of_app; [by apply Hsub|].
      destruct (ev_set _ _ Hev _ _ Hs) as (es' & Hes' & _ & Hsub').
      assert (es' = es) as -> by congruence.
      apply Hsub', elem_of_set_values. by eapply list_elem_of_lookup_2.
  - split_and!; [done|apply evolves_refl|].
    exists []. simpl. rewrite app_nil_r. split; [done|].
    intros y Hy. by apply elem_of_nil in Hy.
Qed.

Lemma calls_to_app l cs1 cs2 :
  calls_to l (cs1 ++ cs2) = calls_to l cs1 ++ calls_to l cs2.
Proof. unfold calls_to. apply filter_app. Qed.

Lemma calls_to_other l newState prev (ls : list nat) :
  l ∉ ls → calls_to l ((λ l', mkCall l' newState prev) <$> ls) = [].
Proof.
  unfold calls_to. induction ls as [|l' ls IH]; intros Hl; [done|].
  apply not_elem_of_cons in Hl as [Hne Hl]. simpl.
  rewrite filter_cons_False by (simpl; congruence). by apply IH.
Qed.

Lemma calls_since_app w w' cs :
  calls w' = calls w ++ cs → calls_since w w' = cs.
Proof. intros Heq. unfold calls_since. rewrite Heq. apply drop_app_length. Qed.

Section Calls.

Variable onChange :
  list value → option (list value) → value → completion value.
Variable behaviour : listener → list action.

(** Every call made by a reaction goes to a listener that was in the
    Set when the reaction started, carries the new derived value, and
    carries as previous value the old derived value unless that one is
    nullish. *)
Lemma reaction_calls index depState prevDepState w ls0 :
  wf w → index < length (srcs w) → listeners_of w = Some ls0 →
  let w' := (reaction onChange behaviour index depState prevDepState w).2 in
  ∃ ls, calls w' =
          calls w ++
          ((λ l, mkCall l (state (book w'))
                   (coalesce (state (book w)) (state (book w')))) <$> ls) ∧
        ls ⊆ ls0.
Proof.
  intros Hwf Hi Hls0 w'. destruct (wf_deps _ Hwf) as (cur & Hcur & Hlen).
  destruct (wf_listeners _ Hwf) as (es0 & Hes0 & _).
  assert (ls0 = set_values es0) as ->.
  { unfold listeners_of in Hls0. rewrite Hes0 in Hls0. congruence. }
  assert (depsState (book w) < next w) as Hlt
    by (apply (wf_bound _ Hwf); by eexists).
  pose proof (wf_next_free _ Hwf) as Hfree.
  subst w'. rewrite (reaction_eq _ _ _ _ _ _ cur) by done.
  destruct (onChange _ _ _) as [newState|e] eqn:Hon; simpl.
  - set (w1 := recomputed index depState newState cur w).
    assert (wf w1) as Hwf1 by (apply wf_recomputed; [done..|lia]).
    assert (heap w1 !! listeners (book w) = Some (OSet es0)) as Hes1.
    { simpl. rewrite lookup_insert_ne by congruence. done. }
    destruct (set_forEach_calls behaviour newState
                (coalesce (state (book w)) newState) _ _ _ Hwf1 Hes1)
      as (ls & Hcalls & Hsub).
    pose proof (evolves_set_forEach behaviour newState
                  (coalesce (state (book w)) newState)
                  (listeners (book w)) w1 Hwf1) as Hev.
    exists ls. rewrite (ev_state _ _ Hev). done.
  - exists []. simpl. rewrite app_nil_r. split; [done|].
    intros y Hy. by apply elem_of_nil in Hy.
Qed.

Lemma source_setState_calls i x w ls0 :
  wf w → listeners_of w = Some ls0 →
  let w' := (source_setState onChange behaviour i x w).2 in
  ∃ ls, calls w' =
          calls w ++
          ((λ l, mkCall l (state (book w'))
                   (coalesce (state (book w)) (state (book w')))) <$> ls) ∧
        ls ⊆ ls0.
Proof.
  intros Hwf Hls0 w'. subst w'. unfold source_setState.
  destruct (srcs w !! i) as [prev|] eqn:Hi.
  - apply (reaction_calls i x prev (with_srcs (<[i:=x]> (srcs w)) w) ls0);
      [by apply wf_with_srcs| |done].
    simpl. rewrite length_insert. by eapply lookup_lt_Some.
  - exists []. simpl. rewrite app_nil_r. split; [done|].
    intros y Hy. by apply elem_of_nil in Hy.
Qed.

Lemma reachable_run stores evs w :
  reachable onChange behaviour stores w →
  reachable onChange behaviour stores (run onChange behaviour evs w).
Proof.
  revert w. induction evs as [|e evs IH]; intros w Hr; [done|].
  simpl. apply IH. by constructor.
Qed.

Lemma facade_calls_evolve evs w :
  wf w → Forall is_facade_call evs →
  evolves w (run onChange behaviour evs w).
Proof.
  revert w. induction evs as [|e evs IH]; intros w Hwf Hf.
  - apply evolves_refl.
  - apply Forall_cons in Hf as [He Hf]. simpl.
    eapply evolves_trans; [|apply IH; [by apply wf_step|done]].
    destruct e as [i x|l|l|arg]; simpl; [done| | |apply evolves_refl].
    + by apply (evolves_run_action (ActSubscribe l)).
    + by apply (evolves_run_action (ActUnsubscribe l)).
Qed.

(** C7 (amended).  On the first source change after construction
    (facade calls may come in between), every listener that is called
    receives the new derived value and, as previous value, the initial
    derived value [onChange([v1..vn], null, null)]; only when that
    initial value is [null] or [undefined] does it receive the new
    value in its place. *)
Theorem first_notification_prev stores s0 evs i x :
  onChange stores None VNull = Normal s0 →
  Forall is_facade_call evs →
  ∃ w0, derive onChange stores = Normal w0 ∧
    let w := run onChange behaviour evs w0 in
    let w' := (source_setState onChange behaviour i x w).2 in
    ∀ c, c ∈ calls_since w w' →
         c_state c = state (book w') ∧
         c_prevState c = coalesce s0 (c_state c).
Proof.
  intros Hon Hevs. unfold derive at 1. rewrite Hon. eexists. split; [done|].
  set (w0 := mkWorld _ _ _ _ _).
  assert (derive onChange stores = Normal w0) as Hw0
    by (unfold derive; by rewrite Hon).
  pose proof (wf_derive _ _ _ Hw0) as Hwf0.
  set (w := run onChange behaviour evs w0).
  set (w' := (source_setState onChange behaviour i x w).2).
  intros c Hc.
  assert (wf w) as Hwf.
  { eapply reachable_wf, reachable_run. by constructor. }
  pose proof (facade_calls_evolve evs w0 Hwf0 Hevs) as Hev. fold w in Hev.
  destruct (wf_listeners _ Hwf) as (es & Hes & _).
  destruct (source_setState_calls i x w (set_values es) Hwf)
    as (ls & Hcalls & _).
  { unfold listeners_of. by rewrite Hes. }
  fold w' in Hcalls. rewrite (calls_since_app _ _ _ Hcalls) in Hc.
  apply list_elem_of_fmap in Hc as (l & -> & _). simpl.
  by rewrite (ev_state _ _ Hev).
Qed.

End Calls.

(** ** Listeners that are not in the Set *)

Lemma absent_subscribed l l' es w :
  wf w → heap w !! listeners (book w) = Some (OSet es) →
  l' ≠ l → absent l w → absent l (subscribed l' es w).
Proof.
  intros Hwf Hes Hne (ls & Hls & Hl).
  unfold listeners_of in Hls. rewrite Hes in Hls. injection Hls as <-.
  eexists. unfold listeners_of. simpl. rewrite lookup_insert_eq.
  split; [done|]. rewrite elem_of_set_of_list, elem_of_app, list_elem_of_singleton.
  intros [?|?]; congruence.
Qed.

Lemma absent_unsubscribed l l' es w :
  heap w !! listeners (book w) = Some (OSet es) →
  absent l w ∨ l' = l → absent l (unsubscribed l' es w).
Proof.
  intros Hes Hl.
  eexists. unfold listeners_of. simpl. rewrite lookup_insert_eq.
  split; [done|]. rewrite elem_of_set_delete. intros [Hin Hne].
  destruct Hl as [(ls & Hls & Hl)|Heq]; [|congruence].
  unfold listeners_of in Hls. rewrite Hes in Hls. injection Hls as <-. done.
Qed.

Lemma absent_run_action a l w :
  wf w → a ≠ ActSubscribe l → absent l w → absent l (run_action a w).2.
Proof.
  intros Hwf Hne Hl. destruct (wf_listeners _ Hwf) as (es & Hes & _).
  destruct a as [l'|l'|arg|v]; simpl.
  - rewrite (subscribe_eq _ _ _ Hes). apply absent_subscribed; [done..| |done].
    congruence.
  - rewrite (unsubscribe_eq _ _ _ Hes). apply absent_unsubscribed; auto.
  - done.
  - done.
Qed.

Lemma absent_unsubscribe l w : wf w → absent l (unsubscribe l w).2.
Proof.
  intros Hwf. destruct (wf_listeners _ Hwf) as (es & Hes & _).
  rewrite (unsubscribe_eq _ _ _ Hes). apply absent_unsubscribed; auto.
Qed.

(** Calling the handle of a listener that is not in the Set changes
    nothing. *)
Lemma unsubscribe_absent l w :
  wf w → absent l w → unsubscribe l w = (Normal tt, w).
Proof.
  intros Hwf (ls & Hls & Hl). destruct (wf_listeners _ Hwf) as (es & Hes & _).
  unfold listeners_of in Hls. rewrite Hes in Hls. injection Hls as <-.
  rewrite (unsubscribe_eq _ _ _ Hes). f_equal.
  unfold unsubscribed, with_book, with_heap. simpl.
  rewrite set_delete_absent by done.
  rewrite insert_id by done.
  destruct w as [h n [] cs ss]. done.
Qed.

Section Unsubscribe.

Variable onChange :
  list value → option (list value) → value → completion value.
Variable behaviour : listener → list action.

Variable l : listener.
Hypothesis Hnever : never_subscribes behaviour l.

Lemma absent_invoke newState prev l' w :
  wf w → absent l w → absent l (invoke behaviour newState prev l' w).2.
Proof.
  intros Hwf Hl. unfold invoke, bind, record. simpl.
  apply (run_script_inv (λ w', wf w' ∧ absent l w')); [|by split; [apply wf_recorded|]].
  intros a w' Ha [Hwf' Hl']. split; [by apply wf_run_action|].
  apply absent_run_action; [done| |done].
  intros ->. by apply (Hnever l').
Qed.

Lemma absent_set_forEach newState prev s w :
  wf w → absent l w →
  absent l (set_forEach s (invoke behaviour newState prev) w).2.
Proof.
  intros Hwf Hl.
  apply (set_forEach_inv (λ w', wf w' ∧ absent l w')); [|done].
  intros l' w' es k [Hwf' Hl'] _ _.
  split; [by apply wf_invoke|by apply absent_invoke].
Qed.

Lemma absent_reaction index depState prevDepState w :
  wf w → index < length (srcs w) → absent l w →
  absent l (reaction onChange behaviour index depState prevDepState w).2.
Proof.
  intros Hwf Hi (ls & Hls & Hl).
  destruct (wf_deps _ Hwf) as (cur & Hcur & Hlen).
  destruct (wf_listeners _ Hwf) as (es & Hes & _).
  assert (depsState (book w) < next w) as Hlt
    by (apply (wf_bound _ Hwf); by eexists).
  pose proof (wf_next_free _ Hwf) as Hfree.
  rewrite (reaction_eq _ _ _ _ _ _ cur) by done.
  destruct (onChange _ _ _) as [newState|e]; simpl.
  - apply absent_set_forEach; [apply wf_recomputed; [done..|lia]|].
    exists ls. split; [|done]. unfold listeners_of in *. simpl.
    rewrite lookup_insert_ne by congruence. done.
  - exists ls. split; [|done]. unfold listeners_of in *. simpl.
    rewrite lookup_insert_ne by congruence. done.
Qed.

Lemma absent_step e w :
  wf w → e ≠ ESubscribe l → absent l w →
  absent l (step onChange behaviour e w).2.
Proof.
  intros Hwf Hne Hl. destruct e as [i x|l'|l'|arg]; simpl.
  - unfold source_setState.
    destruct (srcs w !! i) as [prev|] eqn:Hi; [|done].
    apply absent_reaction; [by apply wf_with_srcs| |done].
    simpl. rewrite length_insert. by eapply lookup_lt_Some.
  - apply (absent_run_action (ActSubscribe l')); [done| |done]. congruence.
  - by apply (absent_run_action (ActUnsubscribe l')).
  - done.
Qed.

(** A step made while [l] is not in the Set adds no call to [l]. *)
Lemma absent_step_calls e w :
  wf w → absent l w →
  ∃ cs, calls (step onChange behaviour e w).2 = calls w ++ cs ∧
        calls_to l cs = [].
Proof.
  intros Hwf (ls & Hls & Hl). destruct e as [i x|l'|l'|arg]; simpl.
  - destruct (source_setState_calls onChange behaviour i x w ls Hwf Hls)
      as (ls' & -> & Hsub).
    eexists. split; [done|]. apply calls_to_other.
    intros Hin. by apply Hl, Hsub.
  - exists []. pose proof (run_action_calls (ActSubscribe l') w) as Hc.
    simpl in Hc. by rewrite Hc, app_nil_r.
  - exists []. pose proof (run_action_calls (ActUnsubscribe l') w) as Hc.
    simpl in Hc. by rewrite Hc, app_nil_r.
  - exists []. by rewrite app_nil_r.
Qed.

Lemma absent_run evs w :
  wf w → ESubscribe l ∉ evs → absent l w →
  absent l (run onChange behaviour evs w) ∧
  ∃ cs, calls (run onChange behaviour evs w) = calls w ++ cs ∧
        calls_to l cs = [].
Proof.
  revert w. induction evs as [|e evs IH]; intros w Hwf Hevs Hl.
  - split; [done|]. exists []. by rewrite app_nil_r.
  - apply not_elem_of_cons in Hevs as [Hne Hevs]. simpl.
    destruct (absent_step_calls e w Hwf Hl) as (cs1 & Hcs1 & Hno1).
    destruct (IH (step onChange behaviour e w).2) as (Hl2 & cs2 & Hcs2 & Hno2);
      [by apply wf_step|done|apply absent_step; [done|congruence|done]|].
    split; [done|]. exists (cs1 ++ cs2).
    rewrite Hcs2, Hcs1, app_assoc, calls_to_app, Hno1, Hno2. done.
Qed.

(** C9 (amended).  Once the handle returned by [subscribe l] has been
    called by the store's user, between two events and not from the
    code of a listener during a notification, no later source change
    calls [l], whatever the sequence of source changes (and of facade
    calls) that follows, as long as [l] is not subscribed again by the
    caller or by the code of a listener. *)
Theorem unsubscribe_stops_calls stores w evs :
  reachable onChange behaviour stores w →
  ESubscribe l ∉ evs →
  let w1 := (unsubscribe l w).2 in
  calls_to l (calls_since w1 (run onChange behaviour evs w1)) = [].
Proof.
  intros Hr Hevs w1.
  pose proof (reachable_wf _ _ _ _ Hr) as Hwf.
  assert (wf w1) as Hwf1 by apply (wf_run_action (ActUnsubscribe l) w Hwf).
  destruct (absent_run evs w1 Hwf1 Hevs) as (_ & cs & Hcs & Hno);
    [by apply absent_unsubscribe|].
  by rewrite (calls_since_app _ _ _ Hcs).
Qed.

(** C10.  Calling the handle again, right away or at any later time at
    which [l] has not been subscribed again, returns normally and
    leaves the whole world (listener Set, bookkeeping fields, heap) as
    it is. *)
Theorem unsubscribe_idempotent stores w evs :
  reachable onChange behaviour stores w →
  ESubscribe l ∉ evs →
  let w1 := (unsubscribe l w).2 in
  unsubscribe l w1 = (Normal tt, w1) ∧
  unsubscribe l (run onChange behaviour evs w1) =
    (Normal tt, run onChange behaviour evs w1).
Proof.
  intros Hr Hevs w1.
  pose proof (reachable_wf _ _ _ _ Hr) as Hwf.
  assert (reachable onChange behaviour stores w1) as Hr1
    by apply (reach_step _ _ _ _ (EUnsubscribe l) Hr).
  pose proof (reachable_wf _ _ _ _ Hr1) as Hwf1.
  pose proof (absent_unsubscribe l w Hwf) as Hl1.
  split; [by apply unsubscribe_absent|].
  apply unsubscribe_absent.
  - eapply reachable_wf. by apply reachable_run.
  - by apply absent_run.
Qed.

End Unsubscribe.

(** ** Fan-out: who is reached *)

Lemma trimmed_refl es : trimmed es es.
Proof. by split. Qed.

Lemma trimmed_trans es1 es2 es3 :
  trimmed es1 es2 → trimmed es2 es3 → trimmed es1 es3.
Proof. intros [Hl1 H1] [Hl2 H2]. split; [congruence|auto]. Qed.

Lemma keeps_refl l es : keeps l es es.
Proof. by intros q. Qed.

Lemma keeps_trans l es1 es2 es3 :
  keeps l es1 es2 → keeps l es2 es3 → keeps l es1 es3.
Proof. intros H1 H2 q Hq. auto. Qed.

Lemma trimmed_set_delete es x : trimmed es (set_delete es x).
Proof.
  split; [apply length_set_delete|].
  intros q y. rewrite set_delete_lookup.
  destruct (es !! q) as [e|]; simpl; [|done].
  case_decide; [done|]. by intros [= ->].
Qed.

Lemma keeps_set_delete l es x : x ≠ l → keeps l es (set_delete es x).
Proof.
  intros Hne q Hq. rewrite set_delete_lookup, Hq. simpl.
  rewrite decide_False; [done|]. congruence.
Qed.

(** In a Set without duplicates a listener has one position. *)
Lemma set_position_unique es (x : nat) i j :
  NoDup (set_values es) →
  es !! i = Some (Some x) → es !! j = Some (Some x) → i = j.
Proof.
  unfold set_values. revert i j.
  induction es as [|e es IH]; intros i j Hnd Hi Hj; [done|].
  assert (∀ k, es !! k = Some (Some x) → x ∈ omap id es) as Hin.
  { intros k Hk. apply (elem_of_set_values es x).
    by eapply list_elem_of_lookup_2. }
  destruct e as [y|]; simpl in Hnd.
  - apply NoDup_cons in Hnd as [Hy Hnd].
    destruct i as [|i], j as [|j]; simpl in *; simplify_eq.
    + done.
    + exfalso. eauto.
    + exfalso. eauto.
    + f_equal. by apply IH.
  - destruct i as [|i], j as [|j]; simpl in *; simplify_eq.
    f_equal. by apply IH.
Qed.

Section FanOut.

Variable onChange :
  list value → option (list value) → value → completion value.
Variable behaviour : listener → list action.

(** What an action that returns does to a Set object [s]. *)
Lemma returns_run_action l s a w es :
  returns a → wf w → heap w !! s = Some (OSet es) →
  ∃ es', (run_action a w).1 = Normal tt ∧
         heap (run_action a w).2 !! s = Some (OSet es') ∧
         trimmed es es' ∧
         (a ≠ ActUnsubscribe l → keeps l es es').
Proof.
  intros Ha Hwf Hs. destruct (wf_listeners _ Hwf) as (cur & Hcur & _).
  destruct a as [l'|l'|arg|v]; simpl; [| |done..].
  - rewrite (subscribe_eq _ _ _ Hcur). simpl. exists es.
    assert (next w ≠ s) as Hne.
    { intros <-. by rewrite (wf_next_free _ Hwf) in Hs. }
    rewrite lookup_insert_ne by done.
    split_and!; [done|done|apply trimmed_refl|intros _; apply keeps_refl].
  - rewrite (unsubscribe_eq _ _ _ Hcur). simpl.
    destruct (decide (listeners (book w) = s)) as [<-|Hne].
    + assert (cur = es) as -> by congruence.
      exists (set_delete es l'). rewrite lookup_insert_eq.
      split_and!; [done|done|apply trimmed_set_delete|].
      intros Hl. apply keeps_set_delete. congruence.
    + exists es. rewrite lookup_insert_ne by done.
      split_and!; [done|done|apply trimmed_refl|intros _; apply keeps_refl].
Qed.

Lemma returns_run_script l s script :
  Forall returns script →
  ∀ w es, wf w → heap w !! s = Some (OSet es) →
  ∃ es', (run_script script w).1 = Normal tt ∧
         heap (run_script script w).2 !! s = Some (OSet es') ∧
         trimmed es es' ∧
         (ActUnsubscribe l ∉ script → keeps l es es').
Proof.
  induction script as [|a script IH]; intros Hret w es Hwf Hs.
  - exists es. split_and!; [done|done|apply trimmed_refl|intros _; apply keeps_refl].
  - apply Forall_cons in Hret as [Ha Hret].
    destruct (returns_run_action l s a w es Ha Hwf Hs)
      as (es1 & Hn1 & Hs1 & Ht1 & Hk1).
    pose proof (wf_run_action a w Hwf) as Hwf1.
    simpl. unfold bind.
    destruct (run_action a w) as [[[]|?] w1]; simpl in *; [|done].
    destruct (IH Hret w1 es1 Hwf1 Hs1) as (es2 & Hn2 & Hs2 & Ht2 & Hk2).
    exists es2. split_and!; [done|done|by eapply trimmed_trans|].
    intros [Hne Hnin]%not_elem_of_cons.
    eapply keeps_trans; [apply Hk1; congruence|by apply Hk2].
Qed.

Lemma returns_invoke l s newState prev l' w es :
  calm behaviour l' → wf w → heap w !! s = Some (OSet es) →
  ∃ es', (invoke behaviour newState prev l' w).1 = Normal tt ∧
         heap (invoke behaviour newState prev l' w).2 !! s = Some (OSet es') ∧
         trimmed es es' ∧
         (spares behaviour l' l → keeps l es es').
Proof.
  intros Hc Hwf Hs. unfold invoke, bind, record. simpl.
  apply (returns_run_script l s (behaviour l') Hc (with_calls _ w));
    [by apply wf_recorded|done].
Qed.

Lemma set_forEach_from_S steps index s callbackfn w es :
  heap w !! s = Some (OSet es) →
  set_forEach_from (S steps) index s callbackfn w =
  match es !! index with
  | None => (Normal tt, w)
  | Some e =>
      bind (match e with
            | Some l => callbackfn l
            | None => ret tt
            end)
           (λ _, set_forEach_from steps (S index) s callbackfn) w
  end.
Proof.
  intros Hs. simpl. unfold bind at 1, read_set. rewrite Hs.
  by destruct (es !! index).
Qed.

(** The iteration over a Set that started as [es0], seen from position
    [index] on: when nobody throws and nobody else removes [l], the
    listener [l] at position [p] is called once if [p] is still ahead
    and not at all if [p] has been passed. *)
Lemma set_forEach_from_reaches newState prev s es0 l p :
  NoDup (set_values es0) →
  es0 !! p = Some (Some l) →
  (∀ l', l' ∈ set_values es0 → calm behaviour l') →
  (∀ l', l' ∈ set_values es0 → l' ≠ l → spares behaviour l' l) →
  ∀ steps index w es,
    wf w → heap w !! s = Some (OSet es) → trimmed es0 es →
    (index ≤ p → es !! p = Some (Some l)) →
    length es0 ≤ index + steps →
    ∃ cs,
      (set_forEach_from steps index s (invoke behaviour newState prev) w).1
        = Normal tt ∧
      calls (set_forEach_from steps index s (invoke behaviour newState prev) w).2
        = calls w ++ cs ∧
      calls_to l cs =
        if decide (index ≤ p) then [mkCall l newState prev] else [].
Proof.
  intros Hnd Hp Hcalm Hspare.
  assert (p < length es0) as Hplt by by eapply lookup_lt_Some.
  induction steps as [|steps IH]; intros index w es Hwf Hs Ht Hl Hlen.
  - exists []. rewrite app_nil_r, decide_False by lia. done.
  - rewrite (set_forEach_from_S _ _ _ _ _ _ Hs).
    destruct Ht as [Hlen' Hsub].
    destruct (es !! index) as [[x|]|] eqn:Hk.
    + (* a live entry: its listener is called *)
      pose proof (Hsub _ _ Hk) as Hk0.
      assert (x ∈ set_values es0) as Hx.
      { apply elem_of_set_values. by eapply list_elem_of_lookup_2. }
      destruct (returns_invoke l s newState prev x w es (Hcalm x Hx) Hwf Hs)
        as (es1 & Hn1 & Hs1 & Ht1 & Hk1).
      pose proof (invoke_calls behaviour newState prev x w) as Hc1.
      pose proof (wf_invoke behaviour newState prev x w Hwf) as Hwf1.
      unfold bind.
      destruct (invoke behaviour newState prev x w) as [[[]|?] w1];
        simpl in *; [|done].
      destruct (IH (S index) w1 es1) as (cs & Hn & Hc & Hto);
        [done|done|by eapply trimmed_trans| |lia|].
      { intros Hle. apply Hk1; [|apply Hl; lia].
        apply Hspare; [done|]. intros ->.
        assert (index = p) by by eapply set_position_unique. lia. }
      exists (mkCall x newState prev :: cs).
      split_and!; [done|by rewrite Hc, Hc1, <- app_assoc|].
      unfold calls_to in *. destruct (decide (index = p)) as [->|Hne].
      * assert (x = l) as -> by (rewrite Hl in Hk by lia; congruence).
        rewrite filter_cons_True by done. rewrite Hto.
        rewrite decide_False, decide_True by lia. done.
      * assert (x ≠ l) as Hxl.
        { intros ->. apply Hne. by eapply set_position_unique. }
        rewrite filter_cons_False by (simpl; congruence). rewrite Hto.
        destruct (decide (index ≤ p)), (decide (S index ≤ p)); try done; lia.
    + (* an emptied entry: skipped *)
      unfold bind. simpl.
      assert (index ≠ p) as Hne.
      { intros ->. destruct (decide (p ≤ p)) as [Hle|]; [|lia].
        rewrite (Hl Hle) in Hk. done. }
      destruct (IH (S index) w es) as (cs & Hn & Hc & Hto);
        [done|done|by split|intros; apply Hl; lia|lia|].
      exists cs. split_and!; [done|done|]. rewrite Hto.
      destruct (decide (index ≤ p)), (decide (S index ≤ p)); try done; lia.
    + (* past the last entry *)
      apply lookup_ge_None in Hk.
      exists []. rewrite app_nil_r, decide_False by lia. done.
Qed.

(** C8 (amended).  When [onChange] returns, a source change calls a
    listener that was in the Set before the change exactly once, with
    the value that [getState()] returns afterwards as first argument,
    provided that no listener in the Set throws when it is called and
    that no other listener in the Set calls this listener's handle. *)
Theorem fan_out_once stores w i x prev cur ls newState l :
  reachable onChange behaviour stores w →
  srcs w !! i = Some prev →
  deps_of w = Some cur →
  listeners_of w = Some ls →
  onChange (<[i:=x]> cur) (Some cur) (state (book w)) = Normal newState →
  (∀ l', l' ∈ ls → calm behaviour l') →
  (∀ l', l' ∈ ls → l' ≠ l → spares behaviour l' l) →
  l ∈ ls →
  let r := source_setState onChange behaviour i x w in
  r.1 = Normal tt ∧
  getState r.2 = (Normal newState, r.2) ∧
  calls_to l (calls_since w r.2) =
    [mkCall l newState (coalesce (state (book w)) newState)].
Proof.
  intros Hr Hi Hdeps Hls Hon Hcalm Hspare Hl r.
  pose proof (reachable_wf _ _ _ _ Hr) as Hwf.
  destruct (wf_deps _ Hwf) as (cur' & Hcur & Hlen).
  assert (cur' = cur) as ->.
  { unfold deps_of in Hdeps. rewrite Hcur in Hdeps. congruence. }
  destruct (wf_listeners _ Hwf) as (es & Hes & Hnd).
  assert (ls = set_values es) as ->.
  { unfold listeners_of in Hls. rewrite Hes in Hls. congruence. }
  assert (i < length cur) as Hlt.
  { rewrite Hlen. by eapply lookup_lt_Some. }
  pose proof (wf_next_free _ Hwf) as Hfree.
  apply elem_of_set_values, list_elem_of_lookup in Hl as [p Hp].
  set (ws := with_srcs (<[i:=x]> (srcs w)) w).
  assert (wf ws) as Hwfs by by apply wf_with_srcs.
  subst r. unfold source_setState. rewrite Hi. fold ws.
  rewrite (reaction_eq _ _ _ _ _ _ cur); [|done|].
  2:{ apply (wf_bound _ Hwf). by eexists. }
  rewrite js_array_set_in_range by done. simpl. rewrite Hon.
  set (w1 := recomputed i x newState cur ws).
  set (pv := coalesce (state (book w)) newState).
  assert (wf w1) as Hwf1 by by apply wf_recomputed.
  assert (heap w1 !! listeners (book w) = Some (OSet es)) as Hes1.
  { simpl. rewrite lookup_insert_ne by congruence. done. }
  pose proof (evolves_set_forEach behaviour newState pv
                (listeners (book w)) w1 Hwf1) as Hev.
  unfold set_forEach, bind, read_set in *. rewrite Hes1 in *.
  destruct (set_forEach_from_reaches newState pv (listeners (book w)) es l p
              Hnd Hp Hcalm Hspare (length es) 0 w1 es Hwf1 Hes1)
    as (cs & Hn & Hc & Hto); [apply trimmed_refl|done|lia|].
  split_and!.
  - done.
  - unfold getState, store_getState, bind, ret. simpl.
    rewrite (ev_state _ _ Hev). done.
  - rewrite (calls_since_app w _ _ Hc), Hto.
    by rewrite decide_True by lia.
Qed.

(** C5 (amended).  Subscribing a listener value that is already in the
    Set leaves the Set as it is: the value is a member once, one call
    of the handle removes it, and the next source change does not call
    it. *)
Theorem subscribe_same_listener stores w l :
  reachable onChange behaviour stores w →
  let w1 := (subscribe l w).2 in
  let w2 := (subscribe l w1).2 in
  let w3 := (unsubscribe l w2).2 in
  ∃ ls, listeners_of w1 = Some ls ∧
        listeners_of w2 = Some ls ∧
        l ∈ ls ∧ NoDup ls ∧
        absent l w3 ∧
        ∀ i x, calls_to l
                 (calls_since w3
                    (source_setState onChange behaviour i x w3).2) = [].
Proof.
  intros Hr w1 w2 w3.
  pose proof (reachable_wf _ _ _ _ Hr) as Hwf.
  destruct (wf_listeners _ Hwf) as (es & Hes & _).
  set (es1 := set_of_list (set_values es ++ [l])).
  assert (w1 = subscribed l es w) as Hw1
    by (subst w1; by rewrite (subscribe_eq _ _ _ Hes)).
  assert (wf w1) as Hwf1 by (rewrite Hw1; by apply wf_subscribed).
  assert (heap w1 !! listeners (book w1) = Some (OSet es1)) as Hes1.
  { rewrite Hw1. simpl. by rewrite lookup_insert_eq. }
  assert (l ∈ set_values es1) as Hl1.
  { apply elem_of_set_of_list, elem_of_app. right. by apply list_elem_of_singleton. }
  assert (NoDup (set_values es1)) as Hnd1 by apply set_of_list_NoDup.
  assert (w2 = subscribed l es1 w1) as Hw2
    by (subst w2; by rewrite (subscribe_eq _ _ _ Hes1)).
  assert (wf w2) as Hwf2 by (rewrite Hw2; by apply wf_subscribed).
  exists (set_values es1). split_and!; try done.
  - unfold listeners_of. by rewrite Hes1.
  - rewrite Hw2. unfold listeners_of. simpl. rewrite lookup_insert_eq.
    f_equal. rewrite set_of_list_snoc, set_of_list_id by done.
    unfold set_add. rewrite set_values_Some, decide_True by done.
    apply set_values_Some.
  - by apply absent_unsubscribe.
  - intros i x.
    assert (wf w3) as Hwf3 by apply (wf_run_action (ActUnsubscribe l) w2 Hwf2).
    destruct (absent_step_calls onChange behaviour l (ESource i x) w3 Hwf3)
      as (cs & Hcs & Hto); [by apply absent_unsubscribe|].
    simpl in Hcs. by rewrite (calls_since_app _ _ _ Hcs).
Qed.

End FanOut.

(** ** The bound on the iteration is never the reason it stops

    A Set object keeps its number of entries while callbacks run, so any
    number of steps that covers the entries from [index] on gives the
    same run: the iteration ends because it has passed the last entry. *)

Lemma set_forEach_from_enough behaviour newState prev s :
  ∀ steps steps' index w es,
    wf w → heap w !! s = Some (OSet es) →
    length es ≤ index + steps → length es ≤ index + steps' →
    set_forEach_from steps index s (invoke behaviour newState prev) w =
    set_forEach_from steps' index s (invoke behaviour newState prev) w.
Proof.
  induction steps as [|steps IH]; intros [|steps'] index w es Hwf Hs Hlen Hlen';
    try done.
  - rewrite (set_forEach_from_S _ _ _ _ _ _ Hs).
    by rewrite (lookup_ge_None_2 es index) by lia.
  - rewrite (set_forEach_from_S _ _ _ _ _ _ Hs).
    by rewrite (lookup_ge_None_2 es index) by lia.
  - rewrite !(set_forEach_from_S _ _ _ _ _ _ Hs).
    destruct (es !! index) as [[l|]|] eqn:Hk; [| |done].
    + unfold bind.
      pose proof (wf_invoke behaviour newState prev l w Hwf) as Hwf'.
      pose proof (evolves_invoke behaviour newState prev l w Hwf) as Hev.
      destruct (invoke behaviour newState prev l w) as [[[]|?] w1];
        simpl in *; [|done].
      destruct (ev_set _ _ Hev _ _ Hs) as (es' & Hes' & Hlen1 & _).
      apply (IH steps' (S index) w1 es'); [done..|lia|lia].
    + unfold bind. simpl. apply (IH steps' (S index) w es); [done..|lia|lia].
Qed.

(** ** The concrete store: instances and departures *)

Lemma start_reachable behaviour :
  reachable Example.sum behaviour Example.stores Example.start.
Proof. by apply reach_derive. Defined.

Lemma derive_initial_witness :
  Example.sum Example.stores None VNull = Normal (VNum 5) ∧
  ∃ w, derive Example.sum Example.stores = Normal w ∧
       getState w = (Normal (VNum 5), w) ∧
       deps_of w = Some Example.stores ∧
       prevDeps_of w = Some None ∧
       prevDepsState (book w) = None ∧
       prevState (book w) = VNull ∧
       listeners_of w = Some [] ∧
       calls w = [].
Proof.
  split; [reflexivity|].
  apply (derive_initial Example.sum Example.stores (VNum 5)). reflexivity.
Defined.

Lemma getState_consistent_witness :
  let w := (source_setState Example.sum Example.inert 0 (VNum 10)
              Example.observed).2 in
  reachable Example.sum Example.inert Example.stores w ∧
  getState w = (Normal (state (book w)), w) ∧
  ∃ ds pds,
    deps_of w = Some ds ∧ prevDeps_of w = Some pds ∧
    Example.sum ds pds (prevState (book w)) = (getState w).1.
Proof.
  intros w.
  assert (reachable Example.sum Example.inert Example.stores w) as Hr.
  { apply (reach_step _ _ _ _ (ESource 0 (VNum 10))).
    apply (reach_step _ _ _ _ (ESubscribe 5)).
    apply start_reachable. }
  split; [exact Hr|].
  exact (getState_consistent Example.sum Example.inert Example.stores w Hr).
Defined.

Lemma reaction_fresh_tuple_witness :
  let w := Example.observed in
  let w' := (reaction Example.sum Example.inert 0 (VNum 10) (VNum 2) w).2 in
  reachable Example.sum Example.inert Example.stores w ∧
  deps_of w = Some [VNum 2; VNum 3] ∧
  0 < length [VNum 2; VNum 3] ∧
  Example.sum (<[0:=VNum 10]> [VNum 2; VNum 3]) (Some [VNum 2; VNum 3])
    (state (book w)) = Normal (VNum 13) ∧
  ∃ new,
    deps_of w' = Some new ∧
    length new = length [VNum 2; VNum 3] ∧
    new !! 0 = Some (VNum 10) ∧
    (∀ j, j ≠ 0 → new !! j = [VNum 2; VNum 3] !! j) ∧
    heap w !! depsState (book w') = None ∧
    depsState (book w') ≠ depsState (book w) ∧
    prevDepsState (book w') = Some (depsState (book w)) ∧
    heap w' !! depsState (book w) = Some (OArr [VNum 2; VNum 3]) ∧
    prevDeps_of w' = Some (Some [VNum 2; VNum 3]).
Proof.
  intros w w'.
  assert (reachable Example.sum Example.inert Example.stores w) as Hr.
  { apply (reach_step _ _ _ _ (ESubscribe 5)). apply start_reachable. }
  assert (deps_of w = Some [VNum 2; VNum 3]) as Hd by (vm_compute; reflexivity).
  assert (0 < length [VNum 2; VNum 3]) as Hi by (simpl; lia).
  assert (Example.sum (<[0:=VNum 10]> [VNum 2; VNum 3]) (Some [VNum 2; VNum 3])
            (state (book w)) = Normal (VNum 13)) as Hon by reflexivity.
  refine (conj Hr (conj Hd (conj Hi (conj Hon _)))).
  exact (reaction_fresh_tuple Example.sum Example.inert Example.stores w 0
           (VNum 10) (VNum 2) [VNum 2; VNum 3] (VNum 13) Hr Hd Hi Hon).
Defined.

Lemma reaction_onChange_throws_witness :
  let w := Example.observed in
  let r := reaction Example.sum Example.inert 0 (VStr "x") (VNum 2) w in
  reachable Example.sum Example.inert Example.stores w ∧
  deps_of w = Some [VNum 2; VNum 3] ∧
  Example.sum (js_array_set [VNum 2; VNum 3] 0 (VStr "x"))
    (Some [VNum 2; VNum 3]) (state (book w))
    = Throw (Thrown (VStr "not a number")) ∧
  r.1 = Throw (Thrown (VStr "not a number")) ∧
  book r.2 = book w ∧
  calls r.2 = calls w ∧
  (∀ a o, heap w !! a = Some o → heap r.2 !! a = Some o) ∧
  deps_of r.2 = Some [VNum 2; VNum 3] ∧
  consistent Example.sum r.2.
Proof.
  intros w r.
  assert (reachable Example.sum Example.inert Example.stores w) as Hr.
  { apply (reach_step _ _ _ _ (ESubscribe 5)). apply start_reachable. }
  assert (deps_of w = Some [VNum 2; VNum 3]) as Hd by (vm_compute; reflexivity).
  assert (Example.sum (js_array_set [VNum 2; VNum 3] 0 (VStr "x"))
            (Some [VNum 2; VNum 3]) (state (book w))
          = Throw (Thrown (VStr "not a number"))) as Hon by reflexivity.
  refine (conj Hr (conj Hd (conj Hon _))).
  exact (reaction_onChange_throws Example.sum Example.inert Example.stores w 0
           (VStr "x") (VNum 2) [VNum 2; VNum 3] _ Hr Hd Hon).
Defined.

Lemma first_notification_prev_witness :
  Example.sum Example.stores None VNull = Normal (VNum 5) ∧
  Forall is_facade_call [ESubscribe 5] ∧
  ∃ w0, derive Example.sum Example.stores = Normal w0 ∧
    let w := run Example.sum Example.inert [ESubscribe 5] w0 in
    let w' := (source_setState Example.sum Example.inert 0 (VNum 10) w).2 in
    ∀ c, c ∈ calls_since w w' →
         c_state c = state (book w') ∧
         c_prevState c = coalesce (VNum 5) (c_state c).
Proof.
  assert (Forall is_facade_call [ESubscribe 5]) as Hf
    by (repeat constructor).
  refine (conj eq_refl (conj Hf _)).
  exact (first_notification_prev Example.sum Example.inert Example.stores
           (VNum 5) [ESubscribe 5] 0 (VNum 10) eq_refl Hf).
Defined.

Lemma inert_never_subscribes l : never_subscribes Example.inert l.
Proof. intros l' H. by apply elem_of_nil in H. Defined.

Lemma unsubscribe_stops_calls_witness :
  let w1 := (unsubscribe 5 Example.observed).2 in
  never_subscribes Example.inert 5 ∧
  reachable Example.sum Example.inert Example.stores Example.observed ∧
  (ESubscribe 5 ∉ [ESource 0 (VNum 10); ESource 1 (VNum 7)]) ∧
  calls_to 5
    (calls_since w1
       (run Example.sum Example.inert
          [ESource 0 (VNum 10); ESource 1 (VNum 7)] w1)) = [].
Proof.
  intros w1.
  assert (reachable Example.sum Example.inert Example.stores Example.observed)
    as Hr.
  { apply (reach_step _ _ _ _ (ESubscribe 5)). apply start_reachable. }
  assert (ESubscribe 5 ∉ [ESource 0 (VNum 10); ESource 1 (VNum 7)]) as Hn.
  { rewrite !not_elem_of_cons. split_and!; [done..|apply not_elem_of_nil]. }
  refine (conj (inert_never_subscribes 5) (conj Hr (conj Hn _))).
  exact (unsubscribe_stops_calls Example.sum Example.inert 5
           (inert_never_subscribes 5) Example.stores Example.observed _ Hr Hn).
Defined.

Lemma unsubscribe_idempotent_witness :
  let w1 := (unsubscribe 5 Example.observed).2 in
  let w2 := run Example.sum Example.inert [ESource 0 (VNum 10)] w1 in
  never_subscribes Example.inert 5 ∧
  reachable Example.sum Example.inert Example.stores Example.observed ∧
  (ESubscribe 5 ∉ [ESource 0 (VNum 10)]) ∧
  unsubscribe 5 w1 = (Normal tt, w1) ∧
  unsubscribe 5 w2 = (Normal tt, w2).
Proof.
  intros w1 w2.
  assert (reachable Example.sum Example.inert Example.stores Example.observed)
    as Hr.
  { apply (reach_step _ _ _ _ (ESubscribe 5)). apply start_reachable. }
  assert (ESubscribe 5 ∉ [ESource 0 (VNum 10)]) as Hn.
  { rewrite !not_elem_of_cons. split_and!; [done..|apply not_elem_of_nil]. }
  refine (conj (inert_never_subscribes 5) (conj Hr (conj Hn _))).
  exact (unsubscribe_idempotent Example.sum Example.inert 5
           (inert_never_subscribes 5) Example.stores Example.observed _ Hr Hn).
Defined.

Lemma fan_out_once_witness :
  let w := Example.rivals in
  let r := source_setState Example.sum Example.remover 0 (VNum 10) w in
  reachable Example.sum Example.remover Example.stores w ∧
  srcs w !! 0 = Some (VNum 2) ∧
  deps_of w = Some [VNum 2; VNum 3] ∧
  listeners_of w = Some [7; 8] ∧
  Example.sum (<[0:=VNum 10]> [VNum 2; VNum 3]) (Some [VNum 2; VNum 3])
    (state (book w)) = Normal (VNum 13) ∧
  (∀ l', l' ∈ [7; 8] → calm Example.remover l') ∧
  (∀ l', l' ∈ [7; 8] → l' ≠ 7 → spares Example.remover l' 7) ∧
  7 ∈ [7; 8] ∧
  r.1 = Normal tt ∧
  getState r.2 = (Normal (VNum 13), r.2) ∧
  calls_to 7 (calls_since w r.2) =
    [mkCall 7 (VNum 13) (coalesce (state (book w)) (VNum 13))].
Proof.
  intros w r.
  assert (reachable Example.sum Example.remover Example.stores w) as Hr.
  { apply (reach_step _ _ _ _ (ESubscribe 8)).
    apply (reach_step _ _ _ _ (ESubscribe 7)). apply start_reachable. }
  assert (srcs w !! 0 = Some (VNum 2)) as Hs by reflexivity.
  assert (deps_of w = Some [VNum 2; VNum 3]) as Hd by (vm_compute; reflexivity).
  assert (listeners_of w = Some [7; 8]) as Hl by (vm_compute; reflexivity).
  assert (Example.sum (<[0:=VNum 10]> [VNum 2; VNum 3]) (Some [VNum 2; VNum 3])
            (state (book w)) = Normal (VNum 13)) as Hon by reflexivity.
  assert (∀ l', l' ∈ [7; 8] → calm Example.remover l') as Hc.
  { intros l' Hl'. unfold calm, Example.remover.
    case_decide; repeat constructor. }
  assert (∀ l', l' ∈ [7; 8] → l' ≠ 7 → spares Example.remover l' 7) as Hsp.
  { intros l' Hl' Hne. unfold spares, Example.remover.
    rewrite decide_False by done. apply not_elem_of_nil. }
  assert (7 ∈ [7; 8]) as Hin by left.
  refine (conj Hr (conj Hs (conj Hd (conj Hl (conj Hon (conj Hc
           (conj Hsp (conj Hin _)))))))).
  exact (fan_out_once Example.sum Example.remover Example.stores w 0 (VNum 10)
           (VNum 2) [VNum 2; VNum 3] [7; 8] (VNum 13) 7 Hr Hs Hd Hl Hon
           Hc Hsp Hin).
Defined.

Lemma subscribe_same_listener_witness :
  let w1 := (subscribe 5 Example.start).2 in
  let w2 := (subscribe 5 w1).2 in
  let w3 := (unsubscribe 5 w2).2 in
  reachable Example.sum Example.inert Example.stores Example.start ∧
  ∃ ls, listeners_of w1 = Some ls ∧
        listeners_of w2 = Some ls ∧
        5 ∈ ls ∧ NoDup ls ∧
        absent 5 w3 ∧
        ∀ i x, calls_to 5
                 (calls_since w3
                    (source_setState Example.sum Example.inert i x w3).2) = [].
Proof.
  intros w1 w2 w3. split; [apply start_reachable|].
  exact (subscribe_same_listener Example.sum Example.inert Example.stores
           Example.start 5 (start_reachable _)).
Defined.

(** C5, as stated, fails: the listener value 5 is subscribed twice and
    one of the two handles is called.  The Set then holds no listener,
    and the next source change (the derived value becomes 13) calls
    nobody: the "other" registration receives nothing. *)
Lemma subscribe_twice_unsubscribe_once :
  listeners_of Example.twice = Some [5] ∧
  listeners_of Example.once_removed = Some [] ∧
  (source_setState Example.sum Example.inert 0 (VNum 10)
     Example.once_removed).1 = Normal tt ∧
  (getState (source_setState Example.sum Example.inert 0 (VNum 10)
               Example.once_removed).2).1 = Normal (VNum 13) ∧
  calls (source_setState Example.sum Example.inert 0 (VNum 10)
           Example.once_removed).2 = [].
Proof. vm_compute. done. Qed.

(** C6, as stated, fails: source 0 is set to a string, on which the
    combine function throws.  The exception leaves the reaction, and the
    bookkeeping store is exactly as before: [state] is 5, [depsState] is
    still [2, 3], and 5 is the combine of [2, 3]; there is no mismatch
    between the two fields. *)
Lemma onChange_throws_no_mismatch :
  (source_setState Example.sum Example.inert 0 (VStr "x") Example.start).1
    = Throw (Thrown (VStr "not a number")) ∧
  book (source_setState Example.sum Example.inert 0 (VStr "x") Example.start).2
    = book Example.start ∧
  deps_of (source_setState Example.sum Example.inert 0 (VStr "x")
             Example.start).2 = Some [VNum 2; VNum 3] ∧
  state (book (source_setState Example.sum Example.inert 0 (VStr "x")
                 Example.start).2) = VNum 5 ∧
  consistent Example.sum
    (source_setState Example.sum Example.inert 0 (VStr "x") Example.start).2.
Proof.
  split_and!; try (vm_compute; reflexivity).
  exists [VNum 2; VNum 3], None. split_and!; vm_compute; reflexivity.
Qed.

(** C7, as stated, fails: on the first source change after construction
    the listener is called with new value 13 and previous value 5, the
    initial derived value; the two differ. *)
Lemma first_notification_has_prev :
  calls (source_setState Example.sum Example.inert 0 (VNum 10)
           Example.observed).2 = [mkCall 5 (VNum 13) (VNum 5)] ∧
  ¬ (∀ c, c ∈ calls_since Example.observed
                (source_setState Example.sum Example.inert 0 (VNum 10)
                   Example.observed).2 →
          c_prevState c = c_state c).
Proof.
  split; [vm_compute; reflexivity|].
  intros H. specialize (H (mkCall 5 (VNum 13) (VNum 5))).
  assert (VNum 5 = VNum 13) as Heq; [|discriminate Heq].
  apply H. vm_compute. left.
Qed.

(** C8, as stated, fails: listeners 7 and 8 are both in the Set before
    the source change; 7 is called first and calls the handle of 8,
    which deletes 8 from the Set being iterated, so 8 is not called for
    this change although the change completes with derived value 13. *)
Lemma removed_during_fan_out :
  listeners_of Example.rivals = Some [7; 8] ∧
  (source_setState Example.sum Example.remover 0 (VNum 10) Example.rivals).1
    = Normal tt ∧
  (getState (source_setState Example.sum Example.remover 0 (VNum 10)
               Example.rivals).2).1 = Normal (VNum 13) ∧
  calls_to 8
    (calls_since Example.rivals
       (source_setState Example.sum Example.remover 0 (VNum 10)
          Example.rivals).2) = [].
Proof. vm_compute. done. Qed.

(** C9, as stated, fails: a handle takes effect on the Set that is
    current when it is called.  Source 0 changes to 10 while the Set
    holds 7 and 8.  Listener 7 is called first; its code subscribes 9,
    which makes a new Set current, and then calls the handle of 8, which
    deletes 8 from that new Set: when 7 has run, 8 is no longer a
    member.  The fan-out in progress iterates the older Set and still
    calls 8, after its handle was called.  From the next source change
    on, 8 is not called. *)
Lemma handle_called_during_fan_out :
  listeners_of Example.late_rivals = Some [7; 8] ∧
  Example.late_remover 7 = [ActSubscribe 9; ActUnsubscribe 8] ∧
  calls Scenario.after_seven = [mkCall 7 (VNum 13) (VNum 5)] ∧
  listeners_of Scenario.after_seven = Some [7; 9] ∧
  calls (source_setState Example.sum Example.late_remover 0 (VNum 10)
           Example.late_rivals).2
    = [mkCall 7 (VNum 13) (VNum 5); mkCall 8 (VNum 13) (VNum 5)] ∧
  listeners_of (source_setState Example.sum Example.late_remover 0 (VNum 10)
                  Example.late_rivals).2 = Some [7; 9] ∧
  calls_since
    (source_setState Example.sum Example.late_remover 0 (VNum 10)
       Example.late_rivals).2
    (run Example.sum Example.late_remover
       [ESource 0 (VNum 10); ESource 1 (VNum 4)] Example.late_rivals)
    = [mkCall 7 (VNum 14) (VNum 13); mkCall 9 (VNum 14) (VNum 13)].
Proof. vm_compute. done. Qed.

(** Why the listener must not be subscribed again: here the handle of 8
    is called by the store's user, and the code of listener 7 subscribes
    8 each time it runs.  The first source change calls 7 only; the
    second one calls 8 again. *)
Lemma subscribed_again_by_listener_code :
  listeners_of Scenario.dropped = Some [7] ∧
  calls (run Example.sum Scenario.resubscriber [ESource 0 (VNum 10)]
           Scenario.dropped)
    = [mkCall 7 (VNum 13) (VNum 5)] ∧
  calls (run Example.sum Scenario.resubscriber
           [ESource 0 (VNum 10); ESource 1 (VNum 4)] Scenario.dropped)
    = [mkCall 7 (VNum 13) (VNum 5);
       mkCall 7 (VNum 14) (VNum 13); mkCall 8 (VNum 14) (VNum 13)].
Proof. vm_compute. done. Qed.

(** * Further properties of the engine *)

(** ** One source change, in closed form *)

Lemma source_setState_eq onChange behaviour i x w prev cur :
  wf w → srcs w !! i = Some prev → deps_of w = Some cur →
  i < length cur ∧
  source_setState onChange behaviour i x w =
  match onChange (<[i:=x]> cur) (Some cur) (state (book w)) with
  | Normal newState =>
      set_forEach (listeners (book w))
        (invoke behaviour newState (coalesce (state (book w)) newState))
        (recomputed i x newState cur (with_srcs (<[i:=x]> (srcs w)) w))
  | Throw e => (Throw e, copied i x cur (with_srcs (<[i:=x]> (srcs w)) w))
  end.
Proof.
  intros Hwf Hi Hdeps.
  destruct (wf_deps _ Hwf) as (cur' & Hcur & Hlen).
  assert (cur' = cur) as ->.
  { unfold deps_of in Hdeps. rewrite Hcur in Hdeps. congruence. }
  assert (i < length cur) as Hlt.
  { rewrite Hlen. by eapply lookup_lt_Some. }
  split; [done|].
  unfold source_setState. rewrite Hi.
  rewrite (reaction_eq _ _ _ _ _ _ cur); [|done|].
  2:{ apply (wf_bound _ Hwf). by eexists. }
  by rewrite js_array_set_in_range.
Qed.

Lemma wf_deps_of w : wf w → ∃ cur, deps_of w = Some cur ∧ length cur = length (srcs w).
Proof.
  intros Hwf. destruct (wf_deps _ Hwf) as (cur & Hcur & Hlen).
  exists cur. unfold deps_of. by rewrite Hcur.
Qed.

Lemma wf_listeners_of w :
  wf w → ∃ es, heap w !! listeners (book w) = Some (OSet es) ∧
               listeners_of w = Some (set_values es) ∧ NoDup (set_values es).
Proof.
  intros Hwf. destruct (wf_listeners _ Hwf) as (es & Hes & Hnd).
  exists es. unfold listeners_of. by rewrite Hes.
Qed.

(** What a source change does to the parts of a world that a fan-out
    cannot touch. *)
Lemma source_setState_frame onChange behaviour i x w :
  wf w →
  length (srcs (source_setState onChange behaviour i x w).2) = length (srcs w) ∧
  depsSubs (book (source_setState onChange behaviour i x w).2)
    = depsSubs (book w).
Proof.
  intros Hwf. unfold source_setState.
  destruct (srcs w !! i) as [prev|] eqn:Hi; [|done].
  set (ws := with_srcs (<[i:=x]> (srcs w)) w).
  assert (wf ws) as Hwfs by by apply wf_with_srcs.
  destruct (wf_deps _ Hwfs) as (cur & Hcur & Hlen).
  assert (i < length cur) as Hlt.
  { rewrite Hlen. simpl. rewrite length_insert. by eapply lookup_lt_Some. }
  rewrite (reaction_eq _ _ _ _ _ _ cur); [|done|].
  2:{ apply (wf_bound _ Hwfs). by eexists. }
  destruct (onChange _ _ _) as [newState|e]; simpl.
  - pose proof (evolves_set_forEach behaviour newState
                  (coalesce (state (book w)) newState) (listeners (book w))
                  (recomputed i x newState cur ws)) as Hev.
    destruct Hev as [_ _ _ _ _ _ _ Hsubs Hsrcs _];
      [by apply wf_recomputed|].
    rewrite Hsubs, Hsrcs. simpl. by rewrite length_insert.
  - by rewrite length_insert.
Qed.

Section Shape.

Variable onChange :
  list value → option (list value) → value → completion value.
Variable behaviour : listener → list action.

Lemma step_frame e w :
  wf w →
  length (srcs (step onChange behaviour e w).2) = length (srcs w) ∧
  depsSubs (book (step onChange behaviour e w).2) = depsSubs (book w).
Proof.
  intros Hwf. destruct e as [i x|l|l|arg]; simpl.
  - by apply source_setState_frame.
  - destruct (evolves_run_action (ActSubscribe l) w Hwf)
      as [_ _ _ _ _ _ _ Hsubs Hsrcs _]. simpl in *. by rewrite Hsubs, Hsrcs.
  - destruct (evolves_run_action (ActUnsubscribe l) w Hwf)
      as [_ _ _ _ _ _ _ Hsubs Hsrcs _]. simpl in *. by rewrite Hsubs, Hsrcs.
  - done.
Qed.

(** X1.  In every reachable world the tuple [depsState] has exactly one
    slot per source store, and [depsSubs] lists one unsubscribe handle
    per source store, in index order: both are fixed at construction. *)
Theorem shape_fixed stores w :
  reachable onChange behaviour stores w →
  (∃ ds, deps_of w = Some ds ∧ length ds = length stores) ∧
  depsSubs (book w) = seq 0 (length stores).
Proof.
  intros Hr.
  assert (length (srcs w) = length stores ∧
          depsSubs (book w) = seq 0 (length stores)) as [Hs Hd].
  { induction Hr as [w Hw|w e Hr [IHs IHd]].
    - unfold derive in Hw.
      destruct (onChange stores None VNull) as [s0|]; [|done].
      injection Hw as <-. simpl. split; [done|].
      rewrite imap_seq_0. apply list_fmap_id.
    - destruct (step_frame e w) as [Hs Hd]; [by eapply reachable_wf|].
      split; congruence. }
  split; [|done].
  destruct (wf_deps_of w) as (ds & Hds & Hlen); [by eapply reachable_wf|].
  exists ds. split; [done|congruence].
Qed.

End Shape.

Section Propagation.

Variable onChange :
  list value → option (list value) → value → completion value.
Variable behaviour : listener → list action.

Lemma mirror_step e w :
  (∀ ds pds s, ∃ v, onChange ds pds s = Normal v) →
  wf w → deps_of w = Some (srcs w) →
  deps_of (step onChange behaviour e w).2
    = Some (srcs (step onChange behaviour e w).2).
Proof.
  intros Htotal Hwf Hm. destruct e as [i x|l|l|arg]; simpl; [| | |done].
  - destruct (srcs w !! i) as [prev|] eqn:Hi;
      [|unfold source_setState; by rewrite Hi].
    destruct (source_setState_eq onChange behaviour i x w prev (srcs w)
                Hwf Hi Hm) as [Hlt ->].
    destruct (Htotal (<[i:=x]> (srcs w)) (Some (srcs w)) (state (book w)))
      as [newState ->].
    set (ws := with_srcs (<[i:=x]> (srcs w)) w).
    set (w1 := recomputed i x newState (srcs w) ws).
    assert (wf w1) as Hwf1.
    { apply wf_recomputed; [by apply wf_with_srcs| |done].
      destruct (wf_deps _ Hwf) as (cur & Hcur & _).
      unfold deps_of in Hm. rewrite Hcur in Hm. simpl. congruence. }
    pose proof (evolves_set_forEach behaviour newState
                  (coalesce (state (book w)) newState)
                  (listeners (book w)) w1 Hwf1) as Hev.
    rewrite (ev_srcs _ _ Hev). apply (evolves_deps_of _ _ _ Hev).
    unfold deps_of. simpl. rewrite lookup_insert_eq.
    by rewrite js_array_set_in_range.
  - pose proof (evolves_run_action (ActSubscribe l) w Hwf) as Hev.
    simpl in Hev. rewrite (ev_srcs _ _ Hev). by apply (evolves_deps_of _ _ _ Hev).
  - pose proof (evolves_run_action (ActUnsubscribe l) w Hwf) as Hev.
    simpl in Hev. rewrite (ev_srcs _ _ Hev). by apply (evolves_deps_of _ _ _ Hev).
Qed.

(** X2.  When the combine function never throws, [depsState] holds, in
    every reachable world, the current value of every source store, slot
    by slot: each slot is the last value its source notified, or the
    initial one. *)
Theorem deps_mirror_sources stores w :
  (∀ ds pds s, ∃ v, onChange ds pds s = Normal v) →
  reachable onChange behaviour stores w →
  deps_of w = Some (srcs w).
Proof.
  intros Htotal Hr. induction Hr as [w Hw|w e Hr IH].
  - unfold derive in Hw.
    destruct (onChange stores None VNull) as [s0|]; [|done].
    by injection Hw as <-.
  - apply mirror_step; [done|by eapply reachable_wf|done].
Qed.


Lemma facade_calls_silent evs w :
  Forall is_facade_call evs →
  calls (run onChange behaviour evs w) = calls w.
Proof.
  revert w. induction evs as [|e evs IH]; intros w Hf; [done|].
  apply Forall_cons in Hf as [He Hf]. simpl. rewrite IH by done.
  destruct e as [i x|l|l|arg]; simpl; [done| | |done].
  - apply (run_action_calls (ActSubscribe l)).
  - apply (run_action_calls (ActUnsubscribe l)).
Qed.

(** X4.  Calls of the facade ([subscribe], handles, [setState]) never
    change what the derived store reports nor its dependency
    bookkeeping, and they notify nobody. *)
Theorem facade_calls_keep_state stores w evs :
  reachable onChange behaviour stores w →
  Forall is_facade_call evs →
  let w' := run onChange behaviour evs w in
  (getState w').1 = (getState w).1 ∧
  deps_of w' = deps_of w ∧
  prevDeps_of w' = prevDeps_of w ∧
  prevState (book w') = prevState (book w) ∧
  srcs w' = srcs w ∧
  calls w' = calls w.
Proof.
  intros Hr Hf w'. subst w'.
  pose proof (reachable_wf _ _ _ _ Hr) as Hwf.
  pose proof (facade_calls_evolve onChange behaviour evs w Hwf Hf) as Hev.
  destruct (reachable_consistent _ _ _ _ Hr) as (ds & pds & Hds & Hpds & _).
  split_and!.
  - unfold getState, store_getState, bind, ret. simpl.
    by rewrite (ev_state _ _ Hev).
  - rewrite Hds. by apply (evolves_deps_of _ _ _ Hev).
  - rewrite Hpds. by apply (evolves_prevDeps_of _ _ _ Hev).
  - by rewrite (ev_prevState _ _ Hev).
  - by rewrite (ev_srcs _ _ Hev).
  - by apply facade_calls_silent.
Qed.

End Propagation.

(** ** Membership of the listener Set *)

Lemma set_values_delete es (x : nat) :
  set_values (set_delete es x) = filter (λ y, y ≠ x) (set_values es).
Proof.
  unfold set_values, set_delete. induction es as [|[y|] es IH]; simpl; [done| |done].
  case_decide as Hy; simpl.
  - injection Hy as ->. rewrite filter_cons_False by (intros H; by apply H).
    exact IH.
  - rewrite filter_cons_True by congruence. f_equal. exact IH.
Qed.

Lemma set_values_subscribe es (l : nat) :
  NoDup (set_values es) →
  set_values (set_of_list (set_values es ++ [l])) =
  if decide (l ∈ set_values es) then set_values es else set_values es ++ [l].
Proof.
  intros Hnd. rewrite set_of_list_snoc, set_of_list_id by done.
  rewrite set_add_values, set_values_Some. done.
Qed.

Lemma filter_ne_absent (l : nat) (ls : list nat) :
  l ∉ ls → filter (λ y, y ≠ l) ls = ls.
Proof.
  induction ls as [|y ls IH]; intros Hl; [done|].
  apply not_elem_of_cons in Hl as [Hne Hl].
  rewrite filter_cons_True by congruence. f_equal. by apply IH.
Qed.

Section Membership.

Variable onChange :
  list value → option (list value) → value → completion value.
Variable behaviour : listener → list action.

(** X5.  [subscribe] never fails; it puts a new listener value last in
    the Set and leaves the Set's members and order as they are when the
    value is already a member.  It builds a new Set object and changes
    no object that existed before. *)
Theorem subscribe_appends stores w l ls :
  reachable onChange behaviour stores w →
  listeners_of w = Some ls →
  let r := subscribe l w in
  r.1 = Normal tt ∧
  listeners_of r.2 = Some (if decide (l ∈ ls) then ls else ls ++ [l]) ∧
  heap w !! listeners (book r.2) = None ∧
  heap w ⊆ heap r.2.
Proof.
  intros Hr Hls r.
  pose proof (reachable_wf _ _ _ _ Hr) as Hwf.
  destruct (wf_listeners_of w Hwf) as (es & Hes & Hls' & Hnd).
  assert (ls = set_values es) as -> by congruence.
  subst r. rewrite (subscribe_eq _ _ _ Hes). simpl.
  pose proof (wf_next_free _ Hwf) as Hfree.
  split_and!; [done| |done|by apply insert_subseteq].
  unfold listeners_of. simpl. rewrite lookup_insert_eq.
  by rewrite set_values_subscribe.
Qed.

(** X6.  A handle never fails; it removes its listener value from the
    current Set, in place, and keeps the other members in their
    order. *)
Theorem unsubscribe_removes stores w l ls :
  reachable onChange behaviour stores w →
  listeners_of w = Some ls →
  let r := unsubscribe l w in
  r.1 = Normal tt ∧
  listeners_of r.2 = Some (filter (λ y, y ≠ l) ls) ∧
  listeners (book r.2) = listeners (book w).
Proof.
  intros Hr Hls r.
  pose proof (reachable_wf _ _ _ _ Hr) as Hwf.
  destruct (wf_listeners_of w Hwf) as (es & Hes & Hls' & Hnd).
  assert (ls = set_values es) as -> by congruence.
  subst r. rewrite (unsubscribe_eq _ _ _ Hes). simpl.
  split_and!; [done| |done].
  unfold listeners_of. simpl. rewrite lookup_insert_eq.
  by rewrite set_values_delete.
Qed.

(** X7.  Subscribing a listener value that is not in the Set and then
    calling the returned handle gives back the members the Set had, in
    the same order. *)
Theorem subscribe_unsubscribe_round_trip stores w l ls :
  reachable onChange behaviour stores w →
  listeners_of w = Some ls →
  l ∉ ls →
  listeners_of (unsubscribe l (subscribe l w).2).2 = Some ls.
Proof.
  intros Hr Hls Hl.
  pose proof (reachable_wf _ _ _ _ Hr) as Hwf.
  destruct (wf_listeners_of w Hwf) as (es & Hes & Hls' & Hnd).
  assert (ls = set_values es) as -> by congruence.
  rewrite (subscribe_eq _ _ _ Hes).
  set (es1 := set_of_list (set_values es ++ [l])).
  assert (heap (subscribed l es w) !! listeners (book (subscribed l es w))
          = Some (OSet es1)) as Hes1.
  { simpl. by rewrite lookup_insert_eq. }
  simpl. rewrite (unsubscribe_eq _ _ _ Hes1).
  unfold listeners_of. simpl. rewrite lookup_insert_eq.
  rewrite set_values_delete. unfold es1.
  rewrite set_values_subscribe, decide_False by done.
  rewrite filter_app, filter_ne_absent by done.
  rewrite filter_cons_False by (intros H; by apply H).
  by rewrite app_nil_r.
Qed.

End Membership.

(** ** The fan-out, whatever the listeners do *)

Lemma sublist_full {A} (l1 l2 : list A) :
  NoDup l2 → l1 `sublist_of` l2 → (∀ x, x ∈ l2 → x ∈ l1) → l1 = l2.
Proof.
  intros Hnd Hsub. induction Hsub as [|x l1 l2 Hsub IH|x l1 l2 Hsub IH];
    intros Hall; [done| |].
  - apply NoDup_cons in Hnd as [Hx Hnd]. f_equal. apply IH; [done|].
    intros y Hy.
    assert (y ∈ x :: l1) as [->|Hin]%elem_of_cons by (apply Hall; by right);
      done.
  - apply NoDup_cons in Hnd as [Hx Hnd]. exfalso. apply Hx.
    eapply elem_of_sublist; [|done]. apply Hall. left.
Qed.

Lemma nullish_coalesce a b : nullish (coalesce a b) = true → nullish b = true.
Proof. unfold coalesce. destruct (nullish a) eqn:Ha; congruence. Qed.

Section Notification.

Variable onChange :
  list value → option (list value) → value → completion value.
Variable behaviour : listener → list action.

(** An action, whether it returns or throws, only deletes from a Set
    object that exists. *)
Lemma trimmed_run_action s a w es :
  wf w → heap w !! s = Some (OSet es) →
  ∃ es', heap (run_action a w).2 !! s = Some (OSet es') ∧ trimmed es es'.
Proof.
  intros Hwf Hs. destruct (wf_listeners _ Hwf) as (cur & Hcur & _).
  destruct a as [l'|l'|arg|v]; simpl;
    [| |exists es; split; [done|apply trimmed_refl]..].
  - rewrite (subscribe_eq _ _ _ Hcur). simpl. exists es.
    assert (next w ≠ s) as Hne.
    { intros <-. by rewrite (wf_next_free _ Hwf) in Hs. }
    rewrite lookup_insert_ne by done. split; [done|apply trimmed_refl].
  - rewrite (unsubscribe_eq _ _ _ Hcur). simpl.
    destruct (decide (listeners (book w) = s)) as [<-|Hne].
    + assert (cur = es) as -> by congruence.
      exists (set_delete es l'). rewrite lookup_insert_eq.
      split; [done|apply trimmed_set_delete].
    + exists es. rewrite lookup_insert_ne by done.
      split; [done|apply trimmed_refl].
Qed.

Lemma trimmed_invoke s newState prev l w es :
  wf w → heap w !! s = Some (OSet es) →
  ∃ es', heap (invoke behaviour newState prev l w).2 !! s = Some (OSet es') ∧
         trimmed es es'.
Proof.
  intros Hwf Hs. unfold invoke, bind, record. simpl.
  apply (run_script_inv
           (λ w', wf w' ∧ ∃ es', heap w' !! s = Some (OSet es') ∧ trimmed es es')).
  - intros a w' _ (Hwf' & es' & Hes' & Ht). split; [by apply wf_run_action|].
    destruct (trimmed_run_action s a w' es' Hwf' Hes') as (es'' & Hes'' & Ht').
    exists es''. split; [done|by eapply trimmed_trans].
  - split; [by apply wf_recorded|]. exists es. split; [done|apply trimmed_refl].
Qed.

Lemma trimmed_set_forEach s0 s newState prev w es :
  wf w → heap w !! s = Some (OSet es) →
  ∃ es', heap (set_forEach s0 (invoke behaviour newState prev) w).2 !! s
           = Some (OSet es') ∧ trimmed es es'.
Proof.
  intros Hwf Hs.
  apply (set_forEach_inv
           (λ w', wf w' ∧ ∃ es', heap w' !! s = Some (OSet es') ∧ trimmed es es')).
  - intros l w' _ _ (Hwf' & es' & Hes' & Ht) _ _. split; [by apply wf_invoke|].
    destruct (trimmed_invoke s newState prev l w' es' Hwf' Hes')
      as (es'' & Hes'' & Ht').
    exists es''. split; [done|by eapply trimmed_trans].
  - split; [done|]. exists es. split; [done|apply trimmed_refl].
Qed.

(** The listeners that an iteration calls, read off the Set as it was
    when the iteration started: a subsequence of its members from
    [index] on. *)
Lemma set_forEach_from_sublist newState prev s es0 :
  ∀ steps index w es,
    wf w → heap w !! s = Some (OSet es) → trimmed es0 es →
    ∃ ls,
      calls (set_forEach_from steps index s (invoke behaviour newState prev) w).2
        = calls w ++ ((λ l, mkCall l newState prev) <$> ls) ∧
      ls `sublist_of` set_values (drop index es0).
Proof.
  induction steps as [|steps IH]; intros index w es Hwf Hs Ht.
  - exists []. simpl. rewrite app_nil_r. split; [done|apply sublist_nil_l].
  - rewrite (set_forEach_from_S _ _ _ _ _ _ Hs).
    pose proof Ht as [Hlen Hsub].
    destruct (es !! index) as [[x|]|] eqn:Hk.
    + pose proof (Hsub _ _ Hk) as Hk0. rewrite (drop_S _ _ _ Hk0).
      destruct (trimmed_invoke s newState prev x w es Hwf Hs) as (es1 & Hs1 & Ht1).
      pose proof (invoke_calls behaviour newState prev x w) as Hc1.
      pose proof (wf_invoke behaviour newState prev x w Hwf) as Hwf1.
      unfold bind.
      destruct (invoke behaviour newState prev x w) as [[[]|?] w1]; simpl in *.
      * destruct (IH (S index) w1 es1) as (ls & Hc & Hls);
          [done|done|by eapply trimmed_trans|].
        exists (x :: ls). split; [by rewrite Hc, Hc1, <- app_assoc|].
        by apply sublist_skip.
      * exists [x]. split; [done|]. apply sublist_skip, sublist_nil_l.
    + unfold bind. simpl.
      destruct (IH (S index) w es) as (ls & Hc & Hls); [done..|].
      exists ls. split; [done|].
      destruct (lookup_lt_is_Some_2 es0 index) as [e0 He0].
      { rewrite <- Hlen. by eapply lookup_lt_Some. }
      rewrite (drop_S _ _ _ He0). destruct e0 as [y|]; [|done].
      by apply sublist_cons.
    + exists []. simpl. rewrite app_nil_r. split; [done|apply sublist_nil_l].
Qed.

(** Listeners that do not throw let the iteration come to its end. *)
Lemma set_forEach_from_calm newState prev s es0 :
  (∀ l, l ∈ set_values es0 → calm behaviour l) →
  ∀ steps index w es,
    wf w → heap w !! s = Some (OSet es) → trimmed es0 es →
    (set_forEach_from steps index s (invoke behaviour newState prev) w).1
      = Normal tt.
Proof.
  intros Hcalm. induction steps as [|steps IH]; intros index w es Hwf Hs Ht;
    [done|].
  rewrite (set_forEach_from_S _ _ _ _ _ _ Hs).
  pose proof Ht as [Hlen Hsub].
  destruct (es !! index) as [[x|]|] eqn:Hk; [| |done].
  - assert (x ∈ set_values es0) as Hx.
    { apply elem_of_set_values. eapply list_elem_of_lookup_2. by apply Hsub. }
    destruct (returns_invoke behaviour x s newState prev x w es (Hcalm x Hx) Hwf Hs)
      as (es1 & Hn1 & Hs1 & Ht1 & _).
    pose proof (wf_invoke behaviour newState prev x w Hwf) as Hwf1.
    unfold bind.
    destruct (invoke behaviour newState prev x w) as [[[]|?] w1];
      simpl in *; [|done].
    apply (IH (S index) w1 es1); [done|done|by eapply trimmed_trans].
  - unfold bind. simpl. by apply (IH (S index) w es).
Qed.


(** X9.  When no listener in the Set throws and none calls the handle of
    another member, a source change whose combine call returns notifies
    every member of the Set, once, in subscription order, and returns
    normally. *)
Theorem fan_out_in_order stores w i x prev cur ls newState :
  reachable onChange behaviour stores w →
  srcs w !! i = Some prev →
  deps_of w = Some cur →
  listeners_of w = Some ls →
  onChange (<[i:=x]> cur) (Some cur) (state (book w)) = Normal newState →
  (∀ l', l' ∈ ls → calm behaviour l') →
  (∀ l' l, l' ∈ ls → l ∈ ls → l' ≠ l → spares behaviour l' l) →
  let r := source_setState onChange behaviour i x w in
  r.1 = Normal tt ∧
  calls_since w r.2 =
    (λ l, mkCall l newState (coalesce (state (book w)) newState)) <$> ls.
Proof.
  intros Hr Hi Hdeps Hls Hon Hcalm Hspare r.
  pose proof (reachable_wf _ _ _ _ Hr) as Hwf.
  destruct (wf_listeners_of w Hwf) as (es & Hes & Hls' & Hnd).
  assert (ls = set_values es) as -> by congruence.
  destruct (source_setState_eq onChange behaviour i x w prev cur Hwf Hi Hdeps)
    as [Hlt Heq].
  subst r. rewrite Heq, Hon.
  set (ws := with_srcs (<[i:=x]> (srcs w)) w).
  set (w1 := recomputed i x newState cur ws).
  set (pv := coalesce (state (book w)) newState).
  assert (heap w !! depsState (book w) = Some (OArr cur)) as Hcur.
  { destruct (wf_deps _ Hwf) as (cur' & Hcur & _).
    unfold deps_of in Hdeps. rewrite Hcur in Hdeps. congruence. }
  assert (wf w1) as Hwf1.
  { apply wf_recomputed; [by apply wf_with_srcs|done|done]. }
  pose proof (wf_next_free _ Hwf) as Hfree.
  assert (heap w1 !! listeners (book w) = Some (OSet es)) as Hes1.
  { simpl. rewrite lookup_insert_ne by congruence. done. }
  unfold set_forEach, bind, read_set. rewrite Hes1.
  destruct (set_forEach_from_sublist newState pv (listeners (book w))
              es (length es) 0 w1 es Hwf1 Hes1 (trimmed_refl es))
    as (ls & Hc & Hsub).
  rewrite drop_0 in Hsub.
  split.
  - by apply (set_forEach_from_calm newState pv (listeners (book w)) es Hcalm
                (length es) 0 w1 es Hwf1 Hes1), trimmed_refl.
  - rewrite (calls_since_app w _ _ Hc). f_equal.
    apply sublist_full; [done|done|].
    intros l Hl. pose proof Hl as Hl'.
    apply elem_of_set_values, list_elem_of_lookup in Hl' as [p Hp].
    destruct (set_forEach_from_reaches behaviour newState pv
                (listeners (book w)) es l p Hnd Hp Hcalm
                (λ l' Hl' Hne, Hspare l' l Hl' Hl Hne)
                (length es) 0 w1 es Hwf1 Hes1)
      as (cs & _ & Hc' & Hto); [apply trimmed_refl|done|lia|].
    rewrite Hc in Hc'. apply app_inv_head in Hc'. subst cs.
    rewrite decide_True in Hto by lia.
    destruct (decide (l ∈ ls)) as [|Hnin]; [done|].
    by rewrite (calls_to_other l newState pv ls Hnin) in Hto.
Qed.

Lemma step_calls_law e w :
  wf w →
  ∃ cs, calls (step onChange behaviour e w).2 = calls w ++ cs ∧
        Forall (λ c, nullish (c_prevState c) = true →
                     nullish (c_state c) = true) cs.
Proof.
  intros Hwf. destruct e as [i x|l|l|arg]; simpl.
  - destruct (wf_listeners_of w Hwf) as (es & _ & Hls & _).
    destruct (source_setState_calls onChange behaviour i x w _ Hwf Hls)
      as (ls & Hc & _).
    eexists. split; [exact Hc|].
    apply Forall_fmap, Forall_forall. intros l _. simpl.
    apply nullish_coalesce.
  - exists []. pose proof (run_action_calls (ActSubscribe l) w) as Hc.
    simpl in Hc. by rewrite Hc, app_nil_r.
  - exists []. pose proof (run_action_calls (ActUnsubscribe l) w) as Hc.
    simpl in Hc. by rewrite Hc, app_nil_r.
  - exists []. by rewrite app_nil_r.
Qed.

(** X10.  No listener is ever called with a nullish previous value next
    to a non-nullish new value: in every call ever made, the previous
    value is [null] or [undefined] only if the new derived value is. *)
Theorem prev_nullish_only_if_new_nullish stores w c :
  reachable onChange behaviour stores w →
  c ∈ calls w →
  nullish (c_prevState c) = true → nullish (c_state c) = true.
Proof.
  intros Hr. revert c.
  induction Hr as [w Hw|w e Hr IH]; intros c Hc.
  - unfold derive in Hw.
    destruct (onChange stores None VNull) as [s0|]; [|done].
    injection Hw as <-. by apply elem_of_nil in Hc.
  - destruct (step_calls_law e w) as (cs & Heq & Hall);
      [by eapply reachable_wf|].
    rewrite Heq in Hc. apply elem_of_app in Hc as [Hc|Hc]; [by apply IH|].
    by apply (proj1 (Forall_forall _ _) Hall).
Qed.

(** X11.  No step ever changes the content of an array that exists, and
    the only change a step makes to a Set object that exists is to
    delete members: nothing is added to it and no member moves. *)
Theorem objects_not_overwritten stores w e :
  reachable onChange behaviour stores w →
  let w' := (step onChange behaviour e w).2 in
  (∀ a vs, heap w !! a = Some (OArr vs) → heap w' !! a = Some (OArr vs)) ∧
  (∀ a es, heap w !! a = Some (OSet es) →
           ∃ es', heap w' !! a = Some (OSet es') ∧ trimmed es es').
Proof.
  intros Hr w'. subst w'.
  pose proof (reachable_wf _ _ _ _ Hr) as Hwf.
  pose proof (wf_next_free _ Hwf) as Hfree.
  destruct e as [i x|l|l|arg]; simpl.
  - destruct (srcs w !! i) as [prev|] eqn:Hi.
    2:{ unfold source_setState. rewrite Hi. split; [done|].
        intros a es Ha. exists es. split; [done|apply trimmed_refl]. }
    destruct (wf_deps_of w Hwf) as (cur & Hdeps & _).
    destruct (source_setState_eq onChange behaviour i x w prev cur
                Hwf Hi Hdeps) as [Hlt ->].
    assert (heap w !! depsState (book w) = Some (OArr cur)) as Hcur.
    { destruct (wf_deps _ Hwf) as (cur' & Hcur & _).
      unfold deps_of in Hdeps. rewrite Hcur in Hdeps. congruence. }
    destruct (onChange _ _ _) as [newState|e].
    + set (ws := with_srcs (<[i:=x]> (srcs w)) w).
      set (w1 := recomputed i x newState cur ws).
      assert (wf w1) as Hwf1.
      { apply wf_recomputed; [by apply wf_with_srcs|done|done]. }
      pose proof (evolves_set_forEach behaviour newState
                    (coalesce (state (book w)) newState)
                    (listeners (book w)) w1 Hwf1) as Hev.
      split.
      * intros a vs Ha. apply (ev_arr _ _ Hev). simpl.
        rewrite lookup_insert_ne by congruence. done.
      * intros a es Ha.
        apply (trimmed_set_forEach (listeners (book w)) a newState
                 (coalesce (state (book w)) newState) w1 es Hwf1).
        simpl. rewrite lookup_insert_ne by congruence. done.
    + simpl. split.
      * intros a vs Ha. rewrite lookup_insert_ne by congruence. done.
      * intros a es Ha. exists es. rewrite lookup_insert_ne by congruence.
        split; [done|apply trimmed_refl].
  - split.
    + intros a vs. apply (ev_arr _ _ (evolves_run_action (ActSubscribe l) w Hwf)).
    + intros a es. apply (trimmed_run_action a (ActSubscribe l) w es Hwf).
  - split.
    + intros a vs. apply (ev_arr _ _ (evolves_run_action (ActUnsubscribe l) w Hwf)).
    + intros a es. apply (trimmed_run_action a (ActUnsubscribe l) w es Hwf).
  - split; [done|]. intros a es Ha. exists es. split; [done|apply trimmed_refl].
Qed.

End Notification.

(** ** A listener that throws *)

(** The first member of a Set sits behind emptied entries only. *)
Lemma set_first_member es (l : nat) ls :
  set_values es = l :: ls →
  ∃ p, es !! p = Some (Some l) ∧ ∀ q, q < p → es !! q = Some None.
Proof.
  unfold set_values. induction es as [|[y|] es IH]; simpl; intros Heq; [done| |].
  - injection Heq as -> _. exists 0. split; [done|]. intros q Hq. lia.
  - destruct (IH Heq) as (p & Hp & Hbefore). exists (S p). split; [done|].
    intros [|q] Hq; [done|]. simpl. apply Hbefore. lia.
Qed.

(** An iteration that reaches a callback that throws stops there. *)
Lemma set_forEach_from_throws s callbackfn es l p e :
  es !! p = Some (Some l) →
  (∀ q, q < p → es !! q = Some None) →
  ∀ steps index w w',
    heap w !! s = Some (OSet es) →
    index ≤ p → p < index + steps →
    callbackfn l w = (Throw e, w') →
    set_forEach_from steps index s callbackfn w = (Throw e, w').
Proof.
  intros Hp Hbefore. induction steps as [|steps IH];
    intros index w w' Hs Hle Hlt Hcb; [lia|].
  rewrite (set_forEach_from_S _ _ _ _ _ _ Hs).
  destruct (decide (index = p)) as [->|Hne].
  - rewrite Hp. unfold bind. by rewrite Hcb.
  - rewrite (Hbefore index) by lia. unfold bind. simpl.
    apply IH; [done|lia|lia|done].
Qed.

Section Throwing.

Variable onChange :
  list value → option (list value) → value → completion value.
Variable behaviour : listener → list action.

(** X12.  When the first listener of the Set throws as soon as it is
    called, the source change throws the same value to its caller after
    the bookkeeping store has been written: the derived value is the
    new one, that listener has been called, and no other listener is
    notified of the change. *)
Theorem listener_throw_aborts_fan_out
    stores w i x prev cur l ls newState v rest :
  reachable onChange behaviour stores w →
  srcs w !! i = Some prev →
  deps_of w = Some cur →
  listeners_of w = Some (l :: ls) →
  onChange (<[i:=x]> cur) (Some cur) (state (book w)) = Normal newState →
  behaviour l = ActThrow v :: rest →
  let r := source_setState onChange behaviour i x w in
  r.1 = Throw (Thrown v) ∧
  getState r.2 = (Normal newState, r.2) ∧
  calls_since w r.2 =
    [mkCall l newState (coalesce (state (book w)) newState)].
Proof.
  intros Hr Hi Hdeps Hls Hon Hb r.
  pose proof (reachable_wf _ _ _ _ Hr) as Hwf.
  destruct (wf_listeners_of w Hwf) as (es & Hes & Hls' & Hnd).
  assert (set_values es = l :: ls) as Hvals by congruence.
  destruct (set_first_member es l ls Hvals) as (p & Hp & Hbefore).
  assert (p < length es) as Hplt by by eapply lookup_lt_Some.
  destruct (source_setState_eq onChange behaviour i x w prev cur Hwf Hi Hdeps)
    as [Hlt Heq].
  subst r. rewrite Heq, Hon.
  set (ws := with_srcs (<[i:=x]> (srcs w)) w).
  set (w1 := recomputed i x newState cur ws).
  set (pv := coalesce (state (book w)) newState).
  pose proof (wf_next_free _ Hwf) as Hfree.
  assert (heap w1 !! listeners (book w) = Some (OSet es)) as Hes1.
  { simpl. rewrite lookup_insert_ne by congruence. done. }
  unfold set_forEach, bind, read_set. rewrite Hes1.
  rewrite (set_forEach_from_throws (listeners (book w))
             (invoke behaviour newState pv) es l p (Thrown v) Hp Hbefore
             (length es) 0 w1
             (with_calls (calls w1 ++ [mkCall l newState pv]) w1));
    [|done|lia|lia|].
  - split_and!; [done|done|].
    by apply (calls_since_app w _ [mkCall l newState pv]).
  - unfold invoke, bind, record. by rewrite Hb.
Qed.

End Throwing.

(** ** Instances on the concrete stores *)

Lemma first_start_reachable behaviour :
  reachable Scenario.first behaviour Example.stores
    (Example.built (derive Scenario.first Example.stores)).
Proof. by apply reach_derive. Defined.

Lemma observed_reachable :
  reachable Example.sum Example.inert Example.stores Example.observed.
Proof. apply (reach_step _ _ _ _ (ESubscribe 5)), start_reachable. Defined.

Lemma watched_reachable :
  reachable Example.sum Example.inert Example.stores Scenario.watched.
Proof.
  apply (reach_step _ _ _ _ (ESubscribe 6)).
  apply (reach_step _ _ _ _ (ESubscribe 5)), start_reachable.
Defined.

Lemma doomed_reachable :
  reachable Example.sum Scenario.thrower Example.stores Scenario.doomed.
Proof.
  apply (reach_step _ _ _ _ (ESubscribe 4)).
  apply (reach_step _ _ _ _ (ESubscribe 3)), start_reachable.
Defined.

Lemma rivals_reachable :
  reachable Example.sum Example.remover Example.stores Example.rivals.
Proof.
  apply (reach_step _ _ _ _ (ESubscribe 8)).
  apply (reach_step _ _ _ _ (ESubscribe 7)), start_reachable.
Defined.

Lemma first_total :
  ∀ ds pds s, ∃ v, Scenario.first ds pds s = Normal v.
Proof. intros ds pds s. by eexists. Defined.

Lemma shape_fixed_witness :
  reachable Example.sum Example.inert Example.stores Example.observed ∧
  (∃ ds, deps_of Example.observed = Some ds ∧
         length ds = length Example.stores) ∧
  depsSubs (book Example.observed) = seq 0 (length Example.stores).
Proof.
  refine (conj observed_reachable _).
  exact (shape_fixed Example.sum Example.inert Example.stores Example.observed
           observed_reachable).
Defined.

Lemma deps_mirror_sources_witness :
  (∀ ds pds s, ∃ v, Scenario.first ds pds s = Normal v) ∧
  reachable Scenario.first Example.inert Example.stores Scenario.nulled ∧
  deps_of Scenario.nulled = Some (srcs Scenario.nulled).
Proof.
  assert (reachable Scenario.first Example.inert Example.stores Scenario.nulled)
    as Hr.
  { apply (reach_step _ _ _ _ (ESource 0 VNull)).
    apply (reach_step _ _ _ _ (ESubscribe 5)), first_start_reachable. }
  refine (conj first_total (conj Hr _)).
  exact (deps_mirror_sources Scenario.first Example.inert Example.stores
           Scenario.nulled first_total Hr).
Defined.


Lemma facade_calls_keep_state_witness :
  let w := Example.observed in
  let evs := [ESubscribe 6; ESetState VNull; EUnsubscribe 5] in
  let w' := run Example.sum Example.inert evs w in
  reachable Example.sum Example.inert Example.stores w ∧
  Forall is_facade_call evs ∧
  (getState w').1 = (getState w).1 ∧
  deps_of w' = deps_of w ∧
  prevDeps_of w' = prevDeps_of w ∧
  prevState (book w') = prevState (book w) ∧
  srcs w' = srcs w ∧
  calls w' = calls w.
Proof.
  intros w evs w'.
  assert (Forall is_facade_call evs) as Hf by (repeat constructor).
  refine (conj observed_reachable (conj Hf _)).
  exact (facade_calls_keep_state Example.sum Example.inert Example.stores w evs
           observed_reachable Hf).
Defined.

Lemma subscribe_appends_witness :
  let r := subscribe 6 Example.observed in
  reachable Example.sum Example.inert Example.stores Example.observed ∧
  listeners_of Example.observed = Some [5] ∧
  r.1 = Normal tt ∧
  listeners_of r.2 = Some (if decide (6 ∈ [5]) then [5] else [5] ++ [6]) ∧
  heap Example.observed !! listeners (book r.2) = None ∧
  heap Example.observed ⊆ heap r.2.
Proof.
  intros r.
  assert (listeners_of Example.observed = Some [5]) as Hl
    by (vm_compute; reflexivity).
  refine (conj observed_reachable (conj Hl _)).
  exact (subscribe_appends Example.sum Example.inert Example.stores
           Example.observed 6 [5] observed_reachable Hl).
Defined.

Lemma unsubscribe_removes_witness :
  let r := unsubscribe 5 Scenario.watched in
  reachable Example.sum Example.inert Example.stores Scenario.watched ∧
  listeners_of Scenario.watched = Some [5; 6] ∧
  r.1 = Normal tt ∧
  listeners_of r.2 = Some (filter (λ y, y ≠ 5) [5; 6]) ∧
  listeners (book r.2) = listeners (book Scenario.watched).
Proof.
  intros r.
  assert (listeners_of Scenario.watched = Some [5; 6]) as Hl
    by (vm_compute; reflexivity).
  refine (conj watched_reachable (conj Hl _)).
  exact (unsubscribe_removes Example.sum Example.inert Example.stores
           Scenario.watched 5 [5; 6] watched_reachable Hl).
Defined.

Lemma subscribe_unsubscribe_round_trip_witness :
  reachable Example.sum Example.inert Example.stores Example.observed ∧
  listeners_of Example.observed = Some [5] ∧
  (6 ∉ [5]) ∧
  listeners_of (unsubscribe 6 (subscribe 6 Example.observed).2).2 = Some [5].
Proof.
  assert (listeners_of Example.observed = Some [5]) as Hl
    by (vm_compute; reflexivity).
  assert (6 ∉ [5]) as Hn.
  { rewrite not_elem_of_cons. split; [done|apply not_elem_of_nil]. }
  refine (conj observed_reachable (conj Hl (conj Hn _))).
  exact (subscribe_unsubscribe_round_trip Example.sum Example.inert
           Example.stores Example.observed 6 [5] observed_reachable Hl Hn).
Defined.


Lemma fan_out_in_order_witness :
  let w := Scenario.watched in
  let r := source_setState Example.sum Example.inert 0 (VNum 10) w in
  reachable Example.sum Example.inert Example.stores w ∧
  srcs w !! 0 = Some (VNum 2) ∧
  deps_of w = Some [VNum 2; VNum 3] ∧
  listeners_of w = Some [5; 6] ∧
  Example.sum (<[0:=VNum 10]> [VNum 2; VNum 3]) (Some [VNum 2; VNum 3])
    (state (book w)) = Normal (VNum 13) ∧
  (∀ l', l' ∈ [5; 6] → calm Example.inert l') ∧
  (∀ l' l, l' ∈ [5; 6] → l ∈ [5; 6] → l' ≠ l → spares Example.inert l' l) ∧
  r.1 = Normal tt ∧
  calls_since w r.2 =
    (λ l, mkCall l (VNum 13) (coalesce (state (book w)) (VNum 13))) <$> [5; 6].
Proof.
  intros w r.
  assert (srcs w !! 0 = Some (VNum 2)) as Hs by reflexivity.
  assert (deps_of w = Some [VNum 2; VNum 3]) as Hd by (vm_compute; reflexivity).
  assert (listeners_of w = Some [5; 6]) as Hl by (vm_compute; reflexivity).
  assert (Example.sum (<[0:=VNum 10]> [VNum 2; VNum 3]) (Some [VNum 2; VNum 3])
            (state (book w)) = Normal (VNum 13)) as Hon by reflexivity.
  assert (∀ l', l' ∈ [5; 6] → calm Example.inert l') as Hc
    by (intros l' _; constructor).
  assert (∀ l' l, l' ∈ [5; 6] → l ∈ [5; 6] → l' ≠ l →
                  spares Example.inert l' l) as Hsp
    by (intros l' l _ _ _; apply not_elem_of_nil).
  refine (conj watched_reachable (conj Hs (conj Hd (conj Hl (conj Hon
           (conj Hc (conj Hsp _))))))).
  exact (fan_out_in_order Example.sum Example.inert Example.stores w 0
           (VNum 10) (VNum 2) [VNum 2; VNum 3] [5; 6] (VNum 13)
           watched_reachable Hs Hd Hl Hon Hc Hsp).
Defined.

Lemma prev_nullish_only_if_new_nullish_witness :
  let w := run Scenario.first Example.inert [ESource 0 VUndefined]
             Scenario.nulled in
  let c := mkCall 5 VUndefined VUndefined in
  reachable Scenario.first Example.inert Example.stores w ∧
  c ∈ calls w ∧
  nullish (c_prevState c) = true ∧
  nullish (c_state c) = true.
Proof.
  intros w c.
  assert (reachable Scenario.first Example.inert Example.stores w) as Hr.
  { apply (reach_step _ _ _ _ (ESource 0 VUndefined)).
    apply (reach_step _ _ _ _ (ESource 0 VNull)).
    apply (reach_step _ _ _ _ (ESubscribe 5)), first_start_reachable. }
  assert (c ∈ calls w) as Hc.
  { vm_compute. right. left. }
  assert (nullish (c_prevState c) = true) as Hn by reflexivity.
  refine (conj Hr (conj Hc (conj Hn _))).
  exact (prev_nullish_only_if_new_nullish Scenario.first Example.inert
           Example.stores w c Hr Hc Hn).
Defined.

Lemma objects_not_overwritten_witness :
  let w := Example.rivals in
  let w' := (step Example.sum Example.remover (ESource 0 (VNum 10)) w).2 in
  reachable Example.sum Example.remover Example.stores w ∧
  (∀ a vs, heap w !! a = Some (OArr vs) → heap w' !! a = Some (OArr vs)) ∧
  (∀ a es, heap w !! a = Some (OSet es) →
           ∃ es', heap w' !! a = Some (OSet es') ∧ trimmed es es').
Proof.
  intros w w'. refine (conj rivals_reachable _).
  exact (objects_not_overwritten Example.sum Example.remover Example.stores w
           (ESource 0 (VNum 10)) rivals_reachable).
Defined.

Lemma listener_throw_aborts_fan_out_witness :
  let w := Scenario.doomed in
  let r := source_setState Example.sum Scenario.thrower 0 (VNum 10) w in
  reachable Example.sum Scenario.thrower Example.stores w ∧
  srcs w !! 0 = Some (VNum 2) ∧
  deps_of w = Some [VNum 2; VNum 3] ∧
  listeners_of w = Some [3; 4] ∧
  Example.sum (<[0:=VNum 10]> [VNum 2; VNum 3]) (Some [VNum 2; VNum 3])
    (state (book w)) = Normal (VNum 13) ∧
  Scenario.thrower 3 = [ActThrow (VStr "boom")] ∧
  r.1 = Throw (Thrown (VStr "boom")) ∧
  getState r.2 = (Normal (VNum 13), r.2) ∧
  calls_since w r.2 =
    [mkCall 3 (VNum 13) (coalesce (state (book w)) (VNum 13))].
Proof.
  intros w r.
  assert (srcs w !! 0 = Some (VNum 2)) as Hs by reflexivity.
  assert (deps_of w = Some [VNum 2; VNum 3]) as Hd by (vm_compute; reflexivity).
  assert (listeners_of w = Some [3; 4]) as Hl by (vm_compute; reflexivity).
  assert (Example.sum (<[0:=VNum 10]> [VNum 2; VNum 3]) (Some [VNum 2; VNum 3])
            (state (book w)) = Normal (VNum 13)) as Hon by reflexivity.
  assert (Scenario.thrower 3 = [ActThrow (VStr "boom")]) as Hb by reflexivity.
  refine (conj doomed_reachable (conj Hs (conj Hd (conj Hl (conj Hon
           (conj Hb _)))))).
  exact (listener_throw_aborts_fan_out Example.sum Scenario.thrower
           Example.stores w 0 (VNum 10) (VNum 2) [VNum 2; VNum 3] 3 [4]
           (VNum 13) (VStr "boom") [] doomed_reachable Hs Hd Hl Hon Hb).
Defined.

(** ** A handle called by the code of a listener *)

(** A script that gets as far as a call of the handle of [l], and never
    subscribes [l], ends with [l] out of the Set. *)
Lemma script_reaches_handle l pre post :
  Forall returns pre →
  (∀ a, a ∈ pre ++ ActUnsubscribe l :: post → a ≠ ActSubscribe l) →
  ∀ w, wf w → absent l (run_script (pre ++ ActUnsubscribe l :: post) w).2.
Proof.
  intros Hpre. induction Hpre as [|a pre Ha Hpre IH]; intros Hno w Hwf.
  - simpl. unfold bind.
    destruct (wf_listeners _ Hwf) as (es & Hes & _).
    pose proof (absent_unsubscribe l w Hwf) as Habs.
    pose proof (wf_run_action (ActUnsubscribe l) w Hwf) as Hwf1.
    simpl in Hwf1. rewrite (unsubscribe_eq _ _ _ Hes) in *. simpl in *.
    apply (run_script_inv (λ w', wf w' ∧ absent l w')); [|done].
    intros a w' Hin [Hwf' Habs']. split; [by apply wf_run_action|].
    apply absent_run_action; [done| |done]. apply Hno. by right.
  - simpl. unfold bind.
    destruct (wf_listeners _ Hwf) as (es & Hes & _).
    destruct (returns_run_action l (listeners (book w)) a w es Ha Hwf Hes)
      as (_ & Hn & _).
    pose proof (wf_run_action a w Hwf) as Hwf1.
    destruct (run_action a w) as [[[]|?] w1]; simpl in *; [|done].
    apply IH; [|done]. intros a' Hin. apply Hno. by right.
Qed.

Section HandleInFanOut.

Variable onChange :
  list value → option (list value) → value → completion value.
Variable behaviour : listener → list action.

Variable l : listener.
Hypothesis Hnever : never_subscribes behaviour l.

(** Through a fan-out: as soon as [l0], whose code reaches the handle of
    [l], has been called, [l] is out of the current Set and stays
    out. *)
Lemma set_forEach_handle_reached newState prev s l0 pre post w :
  behaviour l0 = pre ++ ActUnsubscribe l :: post →
  Forall returns pre →
  wf w →
  ∃ cs,
    calls (set_forEach s (invoke behaviour newState prev) w).2 = calls w ++ cs ∧
    ((∃ c, c ∈ cs ∧ c_listener c = l0) →
     absent l (set_forEach s (invoke behaviour newState prev) w).2).
Proof.
  intros Hb Hpre Hwf.
  cut (wf (set_forEach s (invoke behaviour newState prev) w).2 ∧
       ∃ cs,
         calls (set_forEach s (invoke behaviour newState prev) w).2
           = calls w ++ cs ∧
         ((∃ c, c ∈ cs ∧ c_listener c = l0) →
          absent l (set_forEach s (invoke behaviour newState prev) w).2));
    [by intros [_ ?]|].
  apply (set_forEach_inv
           (λ w', wf w' ∧ ∃ cs, calls w' = calls w ++ cs ∧
                    ((∃ c, c ∈ cs ∧ c_listener c = l0) → absent l w'))).
  2:{ split; [done|]. exists []. rewrite app_nil_r. split; [done|].
      intros (c & Hc & _). by apply elem_of_nil in Hc. }
  intros x w' es k (Hwf' & cs & Hcs & Himp) _ _.
  split; [by apply wf_invoke|].
  exists (cs ++ [mkCall x newState prev]).
  split; [by rewrite invoke_calls, Hcs, app_assoc|].
  intros (c & Hc & Hl0).
  destruct (decide (x = l0)) as [->|Hne].
  - unfold invoke, bind, record. simpl. rewrite Hb.
    apply script_reaches_handle; [done| |by apply wf_recorded].
    intros a Ha ->. apply (Hnever l0). by rewrite Hb.
  - apply absent_invoke; [done|done|]. apply Himp.
    apply elem_of_app in Hc as [Hc|Hc]; [by exists c|].
    apply list_elem_of_singleton in Hc. subst c. simpl in Hl0. congruence.
Qed.

(** X13.  When, during the fan-out of a source change, a listener is
    called whose code gets as far as calling the handle of [l], then
    once that change is over [l] is out of the listener Set, and no
    later source change calls it (as long as it is not subscribed
    again). *)
Theorem handle_in_fan_out_effective
    stores w i x l0 pre post evs :
  reachable onChange behaviour stores w →
  behaviour l0 = pre ++ ActUnsubscribe l :: post →
  Forall returns pre →
  ESubscribe l ∉ evs →
  let w' := (source_setState onChange behaviour i x w).2 in
  (∃ c, c ∈ calls_since w w' ∧ c_listener c = l0) →
  absent l w' ∧
  calls_to l (calls_since w' (run onChange behaviour evs w')) = [].
Proof.
  intros Hr Hb Hpre Hevs w' Hcalled.
  pose proof (reachable_wf _ _ _ _ Hr) as Hwf.
  assert (wf w') as Hwf' by by apply wf_source_setState.
  assert (absent l w') as Habs.
  { subst w'. destruct (srcs w !! i) as [prev|] eqn:Hi.
    2:{ unfold source_setState in Hcalled. rewrite Hi in Hcalled.
        destruct Hcalled as (c & Hc & _). unfold calls_since in Hc. simpl in Hc.
        rewrite drop_all in Hc. by apply elem_of_nil in Hc. }
    destruct (wf_deps_of w Hwf) as (cur & Hdeps & _).
    destruct (source_setState_eq onChange behaviour i x w prev cur
                Hwf Hi Hdeps) as [Hlt Heq].
    rewrite Heq in *.
    assert (heap w !! depsState (book w) = Some (OArr cur)) as Hcur.
    { destruct (wf_deps _ Hwf) as (cur' & Hcur & _).
      unfold deps_of in Hdeps. rewrite Hcur in Hdeps. congruence. }
    destruct (onChange _ _ _) as [newState|e].
    - set (w1 := recomputed i x newState cur
                   (with_srcs (<[i:=x]> (srcs w)) w)) in *.
      assert (wf w1) as Hwf1.
      { apply wf_recomputed; [by apply wf_with_srcs|done|done]. }
      destruct (set_forEach_handle_reached newState
                  (coalesce (state (book w)) newState) (listeners (book w))
                  l0 pre post w1 Hb Hpre Hwf1) as (cs & Hcs & Himp).
      apply Himp. destruct Hcalled as (c & Hc & Hl0). exists c. split; [|done].
      by rewrite (calls_since_app w _ cs Hcs) in Hc.
    - destruct Hcalled as (c & Hc & _). unfold calls_since in Hc. simpl in Hc.
      rewrite drop_all in Hc. by apply elem_of_nil in Hc. }
  split; [done|].
  destruct (absent_run onChange behaviour l Hnever evs w' Hwf' Hevs Habs)
    as (_ & cs & Hcs & Hno).
  by rewrite (calls_since_app _ _ _ Hcs).
Qed.

End HandleInFanOut.

Lemma late_rivals_reachable :
  reachable Example.sum Example.late_remover Example.stores Example.late_rivals.
Proof.
  apply (reach_step _ _ _ _ (ESubscribe 8)).
  apply (reach_step _ _ _ _ (ESubscribe 7)), start_reachable.
Defined.

Lemma late_remover_never_subscribes :
  never_subscribes Example.late_remover 8.
Proof.
  intros l'. unfold Example.late_remover. case_decide.
  - rewrite !not_elem_of_cons. split_and!; [done..|apply not_elem_of_nil].
  - apply not_elem_of_nil.
Defined.

Lemma handle_in_fan_out_effective_witness :
  let w := Example.late_rivals in
  let w' := (source_setState Example.sum Example.late_remover 0 (VNum 10) w).2 in
  never_subscribes Example.late_remover 8 ∧
  reachable Example.sum Example.late_remover Example.stores w ∧
  Example.late_remover 7 = [ActSubscribe 9] ++ ActUnsubscribe 8 :: [] ∧
  Forall returns [ActSubscribe 9] ∧
  (ESubscribe 8 ∉ [ESource 1 (VNum 4)]) ∧
  (∃ c, c ∈ calls_since w w' ∧ c_listener c = 7) ∧
  absent 8 w' ∧
  calls_to 8
    (calls_since w'
       (run Example.sum Example.late_remover [ESource 1 (VNum 4)] w')) = [].
Proof.
  intros w w'.
  assert (Example.late_remover 7 = [ActSubscribe 9] ++ ActUnsubscribe 8 :: [])
    as Hb by reflexivity.
  assert (Forall returns [ActSubscribe 9]) as Hpre by (repeat constructor).
  assert (ESubscribe 8 ∉ [ESource 1 (VNum 4)]) as Hn.
  { rewrite not_elem_of_cons. split; [done|apply not_elem_of_nil]. }
  assert (∃ c, c ∈ calls_since w w' ∧ c_listener c = 7) as Hc.
  { exists (mkCall 7 (VNum 13) (VNum 5)). split; [|reflexivity].
    vm_compute. left. }
  refine (conj late_remover_never_subscribes (conj late_rivals_reachable
           (conj Hb (conj Hpre (conj Hn (conj Hc _)))))).
  exact (handle_in_fan_out_effective Example.sum Example.late_remover 8
           late_remover_never_subscribes Example.stores w 0 (VNum 10) 7
           [ActSubscribe 9] [] [ESource 1 (VNum 4)]
           late_rivals_reachable Hb Hpre Hn Hc).
Defined.
